(** * Roadmaker: the traffic simulation engine of [RoadGame.tsx]

    A shallow embedding of the geometry kernel, the road network builder,
    the path finder and the per-tick vehicle scheduler, together with the
    properties of the engine that are established on it.

    Numbers.  A JavaScript [number] is modelled by a canonical rational
    ([Qc]): arithmetic is exact and there is neither NaN nor an infinity.
    Canonical rationals have Leibniz equality, so the string key
    [`${x},${y}`] that the source uses to index its [Map]s and [Set]s is
    modelled by the point itself: two keys are equal exactly when both
    coordinates are numerically equal, and [key.split(',').map(Number)]
    gives the point back.  [Math.sqrt] and [Math.atan2] have no exact
    rational model; they are taken as the operations of the class [JSMath]. *)

From Stdlib Require Import QArith Qcanon Qround ZArith Lia Lqa.
From Stdlib Require Import Sorting.Sorted Sorting.Permutation.
From stdpp Require Import numbers strings base option list.

Local Open Scope Qc_scope.

(** ** Numbers *)

(** The decimal literal [n / d]. *)
Definition frac (n : Z) (d : positive) : Qc := Q2Qc (n # d).

(** [Math.abs]. *)
Definition Math_abs (q : Qc) : Qc := if decide (q < 0) then - q else q.

(** [Math.round]: the nearest integer, a tie going towards +infinity. *)
Definition Math_round (q : Qc) : Qc := Qc_of_Z (Qfloor (this (q + frac 1 2))).

(** [Math.max]. *)
Definition Math_max (a b : Qc) : Qc := if decide (a < b) then b else a.

(** [Math.sqrt] and [Math.atan2], as the host provides them. *)
Class JSMath := {
  Math_sqrt : Qc → Qc;
  Math_atan2 : Qc → Qc → Qc
}.

(** ** Data model ([types.ts]) *)

Record Point := mkPoint { x : Qc; y : Qc }.

Global Instance Point_eq_dec : EqDecision Point.
Proof. solve_decision. Defined.

Record Road := mkRoad {
  road_id : string;
  start : Point;
  end_ : Point;
  controlPoint : option Point
}.

Global Instance Road_eq_dec : EqDecision Road.
Proof. solve_decision. Defined.

Record Intersection := mkIntersection {
  point : Point;
  vehicleCount : Z
}.

Global Instance Intersection_eq_dec : EqDecision Intersection.
Proof. solve_decision. Defined.

Record Building := mkBuilding {
  building_id : string;
  position_of : Point;
  building_color : string
}.

Inductive Lane := left_lane | right_lane.

Global Instance Lane_eq_dec : EqDecision Lane.
Proof. solve_decision. Defined.

Inductive Status := going_to_office | at_office | going_home | at_home.

Global Instance Status_eq_dec : EqDecision Status.
Proof. solve_decision. Defined.

(** ** Geometry kernel *)

Module Geometry.

(** [getLineIntersection], RoadGame.tsx lines 131-152. *)
Definition getLineIntersection (p1 p2 p3 p4 : Point) : option Point :=
  let d1x := x p2 - x p1 in
  let d1y := y p2 - y p1 in
  let d2x := x p4 - x p3 in
  let d2y := y p4 - y p3 in
  let cross := d1x * d2y - d1y * d2x in
  if decide (Math_abs cross < frac 1 10000) then None
  else
    let t := ((x p3 - x p1) * d2y - (y p3 - y p1) * d2x) / cross in
    let u := ((x p3 - x p1) * d1y - (y p3 - y p1) * d1x) / cross in
    if decide (frac 1 100 ≤ t ∧ t ≤ frac 99 100 ∧ frac 1 100 ≤ u ∧ u ≤ frac 99 100)
    then Some {| x := Math_round (x p1 + t * d1x); y := Math_round (y p1 + t * d1y) |}
    else None.

(** The determinant of the two direction vectors. *)
Definition cross_of (p1 p2 p3 p4 : Point) : Qc :=
  (x p2 - x p1) * (y p4 - y p3) - (y p2 - y p1) * (x p4 - x p3).

(** [t] and [u] are the parametric positions of one common point of the
    two carrier lines: [p1 + t (p2 - p1) = p3 + u (p4 - p3)]. *)
Definition parametric (p1 p2 p3 p4 : Point) (t u : Qc) : Prop :=
  x p1 + t * (x p2 - x p1) = x p3 + u * (x p4 - x p3) ∧
  y p1 + t * (y p2 - y p1) = y p3 + u * (y p4 - y p3).

Definition in_closed (t : Qc) : Prop := frac 1 100 ≤ t ∧ t ≤ frac 99 100.

End Geometry.

(** [distance], utils.ts lines 23-25. *)
Definition distance {math : JSMath} (p1 p2 : Point) : Qc :=
  Math_sqrt ((x p2 - x p1) * (x p2 - x p1) + (y p2 - y p1) * (y p2 - y p1)).



(** ** Containers of the source *)

(** A JavaScript [Map] or object: an association list in insertion order.
    [set] on a key that is present updates it in place. *)
Module JSMap.
Section JSMap.
Context {K V : Type} `{EqDecision K}.

Fixpoint get (k : K) (m : list (K * V)) : option V :=
  match m with
  | [] => None
  | (k', v) :: m' => if decide (k = k') then Some v else get k m'
  end.

Fixpoint set (k : K) (v : V) (m : list (K * V)) : list (K * V) :=
  match m with
  | [] => [(k, v)]
  | (k', v') :: m' => if decide (k = k') then (k, v) :: m' else (k', v') :: set k v m'
  end.

Fixpoint delete (k : K) (m : list (K * V)) : list (K * V) :=
  match m with
  | [] => []
  | (k', v') :: m' => if decide (k = k') then m' else (k', v') :: delete k m'
  end.

Definition has (k : K) (m : list (K * V)) : bool := bool_decide (is_Some (get k m)).
End JSMap.
End JSMap.

(** A JavaScript [Set]: the list of its elements in insertion order. *)
Definition set_add {K : Type} `{EqDecision K} (k : K) (s : list K) : list K :=
  if decide (k ∈ s) then s else s ++ [k].

(** [Array.prototype.sort] with a comparator [a.key - b.key]: a stable sort,
    here by insertion after the elements that are not greater. *)
Section StableSort.
Context {A : Type} (ltb : A → A → bool).

Fixpoint insert_sorted (e : A) (l : list A) : list A :=
  match l with
  | [] => [e]
  | h :: tl => if ltb e h then e :: h :: tl else h :: insert_sorted e tl
  end.

Definition stable_sort (l : list A) : list A :=
  fold_left (λ acc e, insert_sorted e acc) l [].
End StableSort.

(** The pairs [(l[i], l[j])], [i < j], in the order of the nested loops. *)
Fixpoint index_pairs {A : Type} (l : list A) : list (A * A) :=
  match l with
  | [] => []
  | a :: l' => map (pair a) l' ++ index_pairs l'
  end.

(** [!road.controlPoint] *)
Definition straight (r : Road) : bool := bool_decide (controlPoint r = None).

(** ** Road network builder *)

Module Network.
Import Geometry.

(** Occurrences of the road end points, RoadGame.tsx lines 156-164. *)
Definition countEndpoints (roadList : list Road) : list (Point * Z) :=
  fold_left (λ points road,
      let points := JSMap.set (start road) (default 0%Z (JSMap.get (start road) points) + 1)%Z points in
      JSMap.set (end_ road) (default 0%Z (JSMap.get (end_ road) points) + 1)%Z points)
    roadList [].

(** The junctions: end points met twice or more, lines 166-172. *)
Definition junctions (roadList : list Road) : list Intersection :=
  omap (λ '(key, count),
      if decide (2 ≤ count)%Z then Some {| point := key; vehicleCount := 0 |} else None)
    (countEndpoints roadList).

(** [result.some(r => |r.x - i.x| < 5 && |r.y - i.y| < 5)], lines 188-191. *)
Definition recorded_nearby (result : list Intersection) (i : Point) : bool :=
  existsb (λ r, bool_decide (Math_abs (x (point r) - x i) < frac 5 1) &&
                bool_decide (Math_abs (y (point r) - y i) < frac 5 1)) result.

(** The body of the nested loops, lines 177-195. *)
Definition addCrossing (result : list Intersection) (pr : Road * Road) : list Intersection :=
  let '(road1, road2) := pr in
  if straight road1 && straight road2 then
    match getLineIntersection (start road1) (end_ road1) (start road2) (end_ road2) with
    | Some intersection =>
        if recorded_nearby result intersection then result
        else result ++ [{| point := intersection; vehicleCount := 0 |}]
    | None => result
    end
  else result.

(** [findIntersections], lines 155-200. *)
Definition findIntersections (roadList : list Road) : list Intersection :=
  fold_left addCrossing (index_pairs roadList) (junctions roadList).

(** The squared Euclidean distance of two points. *)
Definition dist2 (a b : Point) : Qc :=
  (x b - x a) * (x b - x a) + (y b - y a) * (y b - y a).

(** Two points are apart when they differ by 5 or more on one axis at
    least: the negation of the test of [recorded_nearby]. *)
Definition apart (a b : Point) : Prop :=
  ¬ (Math_abs (x a - x b) < frac 5 1 ∧ Math_abs (y a - y b) < frac 5 1).

(** A crossing is a point that [getLineIntersection] returns for two
    straight roads of the list. *)
Definition crossing_of (roadList : list Road) (i : Intersection) : Prop :=
  vehicleCount i = 0%Z ∧
  ∃ road1 road2, (road1, road2) ∈ index_pairs roadList ∧
    straight road1 = true ∧ straight road2 = true ∧
    getLineIntersection (start road1) (end_ road1) (start road2) (end_ road2) = Some (point i).

(** The state of the nested loops: the junctions followed by the crossings
    added so far, each crossing apart from everything recorded before it. *)
Definition crossings_apart (roadList : list Road) (init result : list Intersection) : Prop :=
  ∃ crossings, result = init ++ crossings ∧
    Forall (crossing_of roadList) crossings ∧
    ∀ j k a b, (j < k)%nat → (length init ≤ k)%nat →
      result !! j = Some a → result !! k = Some b → apart (point a) (point b).

End Network.

(** ** Breadth-first search *)

(** The search loop of [findPath] (lines 319-347) over an adjacency
    [neighbors] whose entries carry the road they come from.  The queue
    holds [{point, path, roads}]; [visited] is the set of visited keys. *)
Module BFS.
Section BFS.
Context {node edge : Type} `{EqDecision node}.
Variable neighbors : node → list (node * edge).
Variable endNode : node.

Definition entry : Type := node * list node * list edge.

(** The body of [for (const {point: neighbor, road} of neighbors)]. *)
Definition visit (point : node) (path : list node) (pathRoads : list edge)
    (st : list entry * list node) (nb : node * edge) : list entry * list node :=
  let '(queue, visited) := st in
  let '(neighbor, road) := nb in
  if decide (neighbor ∈ visited) then (queue, visited)
  else (queue ++ [(neighbor, path ++ [neighbor], pathRoads ++ [road])],
        set_add neighbor visited).

(** [while (queue.length > 0)]; the outer [None] is an exhausted bound on
    the number of iterations, [Some None] the [return null] after the loop. *)
Fixpoint search (fuel : nat) (queue : list entry) (visited : list node)
    : option (option (list node)) :=
  match fuel with
  | O => None
  | S fuel' =>
      match queue with
      | [] => Some None
      | (point, path, pathRoads) :: rest =>
          if decide (point = endNode) then Some (Some path)
          else
            let '(queue', visited') :=
              fold_left (visit point path pathRoads) (neighbors point) (rest, visited) in
            search fuel' queue' visited'
      end
  end.

Definition enode (e : entry) : node := e.1.1.
Definition epath (e : entry) : list node := e.1.2.

(** The number of nodes of the path of an entry. *)
Definition plen (e : entry) : nat := length (epath e).

(** [b] is a neighbour of [a]. *)
Definition adjacent (a b : node) : Prop := b ∈ (fst <$> neighbors a).

(** A walk of the graph: consecutive nodes are joined by an entry of
    [neighbors]. *)
Fixpoint is_walk (p : list node) : Prop :=
  match p with
  | [] => False
  | a :: p' =>
      match p' with
      | [] => True
      | b :: _ => adjacent a b ∧ is_walk p'
      end
  end.

(** A walk from [s] to [t]. *)
Definition walk_from_to (s t : node) (p : list node) : Prop :=
  is_walk p ∧ head p = Some s ∧ last p = Some t.

(** The invariant of the search loop started at [s]: the queue holds
    walks from [s] without repetition, in the order of their lengths,
    which differ by one at most; each is a shortest walk to its node;
    a visited node is in the queue or has all its neighbours visited;
    and every node that a walk no longer than the first path of the
    queue reaches is visited. *)
Record Inv (s : node) (queue : list entry) (visited : list node) : Prop := {
  inv_walk : ∀ e, e ∈ queue → walk_from_to s (enode e) (epath e) ∧ enode e ∈ visited;
  inv_nodup : ∀ e, e ∈ queue → NoDup (epath e) ∧ ∀ n, n ∈ epath e → n ∈ visited;
  inv_sorted : StronglySorted (λ a b, plen a ≤ plen b)%nat queue;
  inv_band : ∀ h e, head queue = Some h → e ∈ queue → (plen e ≤ S (plen h))%nat;
  inv_min : ∀ e q, e ∈ queue → walk_from_to s (enode e) q → (plen e ≤ length q)%nat;
  inv_done : ∀ v, v ∈ visited →
    (∃ e, e ∈ queue ∧ enode e = v) ∨ (∀ w, adjacent v w → w ∈ visited);
  inv_level : ∀ h v q, head queue = Some h → walk_from_to s v q →
    (length q ≤ plen h)%nat → v ∈ visited
}.

(** The nodes of [universe] that are not visited yet, counted. *)
Definition unvisited (universe visited : list node) : nat :=
  length (List.filter (λ n, bool_decide (n ∉ visited)) universe).
End BFS.
End BFS.

(** ** Path finder *)

Module PathFinder.
Import Geometry.
Section PathFinder.
Context {math : JSMath}.

(** The end points of the roads, lines 211-216. *)
Definition endpointNodes (roadList : list Road) : list Point :=
  fold_left (λ allNodes road, set_add (end_ road) (set_add (start road) allNodes))
    roadList [].

(** The body of the nested loops of lines 220-237 on
    [(realIntersections, allNodes)]. *)
Definition addRealIntersection (st : list Point * list Point) (pr : Road * Road)
    : list Point * list Point :=
  let '(realIntersections, allNodes) := st in
  let '(road1, road2) := pr in
  if straight road1 && straight road2 then
    match getLineIntersection (start road1) (end_ road1) (start road2) (end_ road2) with
    | Some intersection => (realIntersections ++ [intersection], set_add intersection allNodes)
    | None => st
    end
  else st.

Definition collectNodes (roadList : list Road) : list Point * list Point :=
  fold_left addRealIntersection (index_pairs roadList) ([], endpointNodes roadList).

Definition realIntersections (roadList : list Road) : list Point := fst (collectNodes roadList).
Definition allNodes (roadList : list Road) : list Point := snd (collectNodes roadList).

(** The body of [realIntersections.forEach] for one road, lines 249-265. *)
Definition projectOnRoad (road : Road) (nodesOnRoad : list (Point * Qc)) (intersection : Point)
    : list (Point * Qc) :=
  let dx := x (end_ road) - x (start road) in
  let dy := y (end_ road) - y (start road) in
  let len := Math_sqrt (dx * dx + dy * dy) in
  if decide (len = 0) then nodesOnRoad
  else
    let t := ((x intersection - x (start road)) * dx + (y intersection - y (start road)) * dy)
               / (len * len) in
    if decide (frac 1 100 < t ∧ t < frac 99 100) then
      let projX := x (start road) + t * dx in
      let projY := y (start road) + t * dy in
      let distToLine :=
        Math_sqrt ((x intersection - projX) * (x intersection - projX)
                   + (y intersection - projY) * (y intersection - projY)) in
      if decide (distToLine < frac 2 1) then nodesOnRoad ++ [(intersection, t)]
      else nodesOnRoad
    else nodesOnRoad.

(** The nodes on a road, sorted by [t], lines 242-269. *)
Definition nodesOnRoad (reals : list Point) (road : Road) : list (Point * Qc) :=
  let nodes := [(start road, 0); (end_ road, 1)] in
  let nodes := if straight road then fold_left (projectOnRoad road) reals nodes else nodes in
  stable_sort (λ a b, bool_decide (a.2 < b.2)) nodes.


Definition Connections : Type := list (Point * list (Point * Road)).

(** [if (!m.has(k)) m.set(k, [])] *)
Definition ensure (k : Point) (m : Connections) : Connections :=
  if JSMap.has k m then m else JSMap.set k [] m.

(** [m.get(k)!.push(e)] *)
Definition push_to (k : Point) (e : Point * Road) (m : Connections) : Connections :=
  JSMap.set k (default [] (JSMap.get k m) ++ [e]) m.

(** Linking two consecutive nodes of a road, lines 273-282. *)
Definition link (road : Road) (m : Connections) (from to : Point) : Connections :=
  let m := ensure from m in
  let m := ensure to m in
  let m := push_to from (to, road) m in
  push_to to (from, road) m.

(** [for (let i = 0; i < nodesOnRoad.length - 1; i++)], lines 272-283. *)
Fixpoint linkConsecutive (road : Road) (nodes : list Point) (m : Connections) : Connections :=
  match nodes with
  | from :: ((to :: _) as rest) => linkConsecutive road rest (link road m from to)
  | _ => m
  end.

(** The graph, lines 240-284. *)
Definition buildConnections (roadList : list Road) : Connections :=
  let reals := realIntersections roadList in
  fold_left (λ m road, linkConsecutive road (fst <$> nodesOnRoad reals road) m) roadList [].

(** [nodeConnections.get(key) || []] *)
Definition neighborsOf (m : Connections) (p : Point) : list (Point * Road) :=
  default [] (JSMap.get p m).

(** One step of [allNodes.forEach] for one of the two searched points,
    lines 300-307; [None] stands for the initial [Infinity]. *)
Definition closer (target : Point) (best : option (Point * Qc)) (node : Point)
    : option (Point * Qc) :=
  let dist := distance node target in
  match best with
  | None => Some (node, dist)
  | Some (_, bestDist) => if decide (dist < bestDist) then Some (node, dist) else best
  end.

(** The nearest node and its distance, lines 287-308. *)
Definition closest (target : Point) (nodes : list Point) : option (Point * Qc) :=
  fold_left (closer target) nodes None.

Definition MAX_BUILDING_TO_ROAD_DISTANCE : Qc := frac 50 1.

(** Every point that occurs as a neighbour. *)
Definition neighbourPoints (m : Connections) : list Point :=
  m ≫= (λ kv, fst <$> kv.2).

(** A bound on the number of iterations of the search loop: every
    iteration removes one entry of the queue, and every entry pushed is
    a neighbour point that was not visited before. *)
Definition searchBound (m : Connections) : nat := S (S (length (neighbourPoints m))).

(** [findPath], lines 203-348. *)
Definition findPath (start_ end_pt : Point) (roadList : list Road) : option (list Point) :=
  if decide (length roadList = 0%nat) then None
  else
    let nodes := allNodes roadList in
    let nodeConnections := buildConnections roadList in
    match closest start_ nodes, closest end_pt nodes with
    | Some (closestStart, closestStartDist), Some (closestEnd, closestEndDist) =>
        if decide (MAX_BUILDING_TO_ROAD_DISTANCE < closestStartDist) then None
        else if decide (MAX_BUILDING_TO_ROAD_DISTANCE < closestEndDist) then None
        else
          let startNode := closestStart in
          let endNode := closestEnd in
          match BFS.search (neighborsOf nodeConnections) endNode
                  (searchBound nodeConnections)
                  [(startNode, [startNode], [])] [startNode] with
          | Some result => result
          | None => None
          end
    | _, _ => None
    end.

(** The routable graph of a road set, as an adjacency. *)
Definition graph (roadList : list Road) : Point → list (Point * Road) :=
  neighborsOf (buildConnections roadList).

(** The number of edges of a path. *)
Definition edgeCount (p : list Point) : nat := length p - 1.

End PathFinder.
End PathFinder.

(** ** Vehicle scheduler *)

Record Vehicle := mkVehicle {
  vid : string;
  position : Point;
  path : list Point;
  targetIndex : nat;
  speed : Qc;
  waitTime : Qc;
  color : string;
  lane : Lane;
  direction : Qc;
  fromBuilding : string;
  toBuilding : string;
  status : Status;
  officeArrivalTime : Z;
  intersectionArrivalTimes : list (Point * Z)
}.

Global Instance Vehicle_eq_dec : EqDecision Vehicle.
Proof. solve_decision. Defined.

(** The constants of [constants.ts] that the scheduler reads. *)
Record Constants := mkConstants {
  LANE_OFFSET : Qc;
  OFFICE_WAIT_TIME : Z;
  SCORE_PER_TRIP : Z
}.

Global Instance Point_inhabited : Inhabited Point := populate (mkPoint 0 0).

Module Scheduler.
Import PathFinder.
Section Scheduler.
Context {math : JSMath}.
Variable consts : Constants.

(** The state captured by the game loop. *)
Variable buildings : list Building.
Variable roads : list Road.
Variable intersections : list Intersection.
Variable currentTime : Z.

(** [getLaneOffset], RoadGame.tsx lines 604-613 and utils.ts lines 46-56. *)
Definition getLaneOffset (from to : Point) (ln : Lane) : Point :=
  let dx := x to - x from in
  let dy := y to - y from in
  let length := Math_sqrt (dx * dx + dy * dy) in
  if decide (length = 0) then {| x := 0; y := 0 |}
  else
    let perpX := - dy / length in
    let perpY := dx / length in
    let offset := match ln with
                  | right_lane => LANE_OFFSET consts
                  | left_lane => - LANE_OFFSET consts
                  end in
    {| x := perpX * offset; y := perpY * offset |}.


(** [createReturnPath], lines 405-410. *)
Definition createReturnPath (vehicle : Vehicle) : option (list Point) :=
  match List.find (λ b, bool_decide (building_id b = toBuilding vehicle)) buildings,
        List.find (λ b, bool_decide (building_id b = fromBuilding vehicle)) buildings with
  | Some officeBuilding, Some homeBuilding =>
      findPath (position_of officeBuilding) (position_of homeBuilding) roads
  | _, _ => None
  end.

Definition enRoute (vehicle : Vehicle) : bool :=
  bool_decide (status vehicle = going_to_office) || bool_decide (status vehicle = going_home).

(** [{ ...vehicle, intersectionArrivalTimes: times }] *)
Definition withTimes (v : Vehicle) (times : list (Point * Z)) : Vehicle :=
  mkVehicle (vid v) (position v) (path v) (targetIndex v) (speed v) (waitTime v) (color v)
    (lane v) (direction v) (fromBuilding v) (toBuilding v) (status v) (officeArrivalTime v)
    times.

(** Step 1 for one intersection, lines 629-642. *)
Definition updateArrival (vehicle : Vehicle) (newArrivalTimes : list (Point * Z))
    (intersection : Intersection) : list (Point * Z) :=
  let key := point intersection in
  let dist := distance (position vehicle) (point intersection) in
  if decide (dist < frac 30 1) then
    match JSMap.get key newArrivalTimes with
    | Some t => if decide (t = 0%Z) then JSMap.set key currentTime newArrivalTimes
                else newArrivalTimes
    | None => JSMap.set key currentTime newArrivalTimes
    end
  else JSMap.delete key newArrivalTimes.

(** Step 1, lines 622-645. *)
Definition withArrivalTimes (vehicle : Vehicle) : Vehicle :=
  if enRoute vehicle then
    withTimes vehicle
      (fold_left (updateArrival vehicle) intersections (intersectionArrivalTimes vehicle))
  else vehicle.

Definition Queues : Type := list (Point * list (string * Z)).

(** Step 2 for one vehicle, lines 650-661. *)
Definition enqueueVehicle (queues : Queues) (vehicle : Vehicle) : Queues :=
  if enRoute vehicle then
    fold_left (λ (qs : Queues) '(key, arrivalTime),
        let qs := if JSMap.has key qs then qs else JSMap.set key [] qs in
        JSMap.set key (default [] (JSMap.get key qs) ++ [(vid vehicle, arrivalTime)]) qs)
      (intersectionArrivalTimes vehicle) queues
  else queues.

(** Step 2, lines 648-666: the queues, each sorted by arrival time. *)
Definition intersectionQueues (vehicles : list Vehicle) : Queues :=
  (λ '(key, queue), (key, stable_sort (λ a b, bool_decide (a.2 < b.2)%Z) queue))
    <$> fold_left enqueueVehicle vehicles [].

(** The arrival records of the en-route vehicles for one intersection key,
    in the order of the vehicles. *)
Definition arrivalsAt (key : Point) (vehicles : list Vehicle) : list (string * Z) :=
  vehicles ≫= λ v,
    if enRoute v
    then (intersectionArrivalTimes v) ≫= λ '(k, t), if decide (k = key) then [(vid v, t)] else []
    else [].

(** The queue of a key, empty when there is none. *)
Definition queueAt (key : Point) (qs : Queues) : list (string * Z) :=
  default [] (JSMap.get key qs).

(** [intersections.some(i => distance(vehicle.position, i.point) < 15)] *)
Definition insideIntersection (vehicle : Vehicle) : bool :=
  existsb (λ i, bool_decide (distance (position vehicle) (point i) < frac 15 1)) intersections.

(** Lines 734-738. *)
Definition sameDirectionInIntersection (vehicles : list Vehicle) (vehicle : Vehicle)
    (intersection : Intersection) : bool :=
  existsb (λ other,
      bool_decide (vid other ≠ vid vehicle) &&
      bool_decide (status other = status vehicle) &&
      bool_decide (distance (position other) (point intersection) < frac 15 1))
    vehicles.

(** Lines 744-747. *)
Definition sameDirectionQueue (vehicles : list Vehicle) (vehicle : Vehicle)
    (queue : list (string * Z)) : list (string * Z) :=
  List.filter (λ q,
      match List.find (λ v, bool_decide (vid v = q.1)) vehicles with
      | Some otherVehicle => bool_decide (status otherVehicle = status vehicle)
      | None => false
      end)
    queue.

(** [sameDirectionQueue.length >= 2 && sameDirectionQueue[0].id !== vehicle.id] *)
Definition queuedBehind (vehicle : Vehicle) (sdq : list (string * Z)) : bool :=
  bool_decide (2 ≤ length sdq)%nat &&
  match sdq with
  | first :: _ => bool_decide (first.1 ≠ vid vehicle)
  | [] => false
  end.

(** The body of [intersections.forEach] of lines 726-754 on [shouldWait]. *)
Definition waitAt (vehicles : list Vehicle) (queues : Queues) (vehicle : Vehicle)
    (shouldWait : bool) (intersection : Intersection) : bool :=
  let distToIntersection := distance (position vehicle) (point intersection) in
  if decide (frac 15 1 ≤ distToIntersection ∧ distToIntersection < frac 35 1) then
    let key := point intersection in
    if sameDirectionInIntersection vehicles vehicle intersection then true
    else
      match JSMap.get key queues with
      | Some queue =>
          if decide (2 ≤ length queue)%nat then
            if queuedBehind vehicle (sameDirectionQueue vehicles vehicle queue) then true
            else shouldWait
          else shouldWait
      | None => shouldWait
      end
  else shouldWait.

(** The wait decision, lines 716-755. *)
Definition shouldWait (vehicles : list Vehicle) (queues : Queues) (vehicle : Vehicle) : bool :=
  if insideIntersection vehicle then false
  else fold_left (waitAt vehicles queues vehicle) intersections false.

(** The return of line 761. *)
Definition waiting (v : Vehicle) : Vehicle :=
  mkVehicle (vid v) (position v) (path v) (targetIndex v) (speed v)
    (waitTime v + frac 16 1000) (color v)
    (lane v) (direction v) (fromBuilding v) (toBuilding v) (status v) (officeArrivalTime v)
    (intersectionArrivalTimes v).

(** The movement, lines 704-713 and 764-783; the callback comes here only
    with [targetIndex] inside the path, so that both look-ups are defined. *)
Definition moving (v : Vehicle) : Vehicle :=
  let target := path v !!! targetIndex v in
  let prevPoint := path v !!! Nat.max 0 (targetIndex v - 1) in
  let laneOffset := getLaneOffset prevPoint target (lane v) in
  let adjustedTarget := {| x := x target + x laneOffset; y := y target + y laneOffset |} in
  let dx := x adjustedTarget - x (position v) in
  let dy := y adjustedTarget - y (position v) in
  let dist := Math_sqrt (dx * dx + dy * dy) in
  if decide (dist < speed v) then
    mkVehicle (vid v) adjustedTarget (path v) (targetIndex v + 1) (speed v)
      (Math_max 0 (waitTime v - frac 16 1000)) (color v)
      (lane v) (Math_atan2 dy dx) (fromBuilding v) (toBuilding v) (status v)
      (officeArrivalTime v) (intersectionArrivalTimes v)
  else
    mkVehicle (vid v)
      {| x := x (position v) + (dx / dist) * speed v;
         y := y (position v) + (dy / dist) * speed v |}
      (path v) (targetIndex v) (speed v)
      (Math_max 0 (waitTime v - frac 16 1000)) (color v)
      (lane v) (Math_atan2 dy dx) (fromBuilding v) (toBuilding v) (status v)
      (officeArrivalTime v) (intersectionArrivalTimes v).

(** The return of lines 676-683, for a return path of two nodes or more. *)
Definition leavingOffice (v : Vehicle) (returnPath : list Point) : Vehicle :=
  mkVehicle (vid v) (returnPath !!! 0%nat) returnPath 1 (speed v) (waitTime v) (color v)
    (lane v) (direction v) (fromBuilding v) (toBuilding v) going_home (officeArrivalTime v)
    [].

(** The return of line 695. *)
Definition arrivingAtOffice (v : Vehicle) : Vehicle :=
  mkVehicle (vid v) (position v) (path v) (targetIndex v) (speed v) (waitTime v) (color v)
    (lane v) (direction v) (fromBuilding v) (toBuilding v) at_office currentTime
    (intersectionArrivalTimes v).

(** The callback of [vehiclesWithArrivalTimes.map], lines 670-784: the
    vehicle it returns ([None] for [null]) and what it adds to
    [scoreIncrease]. *)
Definition stepVehicle (vehicles : list Vehicle) (queues : Queues) (vehicle : Vehicle)
    : option Vehicle * Z :=
  if decide (status vehicle = at_office) then
    if decide (OFFICE_WAIT_TIME consts ≤ currentTime - officeArrivalTime vehicle)%Z then
      match createReturnPath vehicle with
      | Some returnPath =>
          if decide (2 ≤ length returnPath)%nat
          then (Some (leavingOffice vehicle returnPath), 0%Z)
          else (Some vehicle, 0%Z)
      | None => (Some vehicle, 0%Z)
      end
    else (Some vehicle, 0%Z)
  else if decide (status vehicle = at_home) then (None, 0%Z)
  else if decide (length (path vehicle) ≤ targetIndex vehicle)%nat then
    if decide (status vehicle = going_to_office) then (Some (arrivingAtOffice vehicle), 0%Z)
    else if decide (status vehicle = going_home) then (None, SCORE_PER_TRIP consts)
    else (Some vehicle, 0%Z)
  else if shouldWait vehicles queues vehicle then (Some (waiting vehicle), 0%Z)
  else (Some (moving vehicle), 0%Z).

(** The updater passed to [setVehicles], lines 620-790: the new vehicle
    list and the [scoreIncrease] of the tick. *)
Definition tick (prevVehicles : list Vehicle) : list Vehicle * Z :=
  let vehiclesWithArrivalTimes := withArrivalTimes <$> prevVehicles in
  let queues := intersectionQueues vehiclesWithArrivalTimes in
  let results := stepVehicle vehiclesWithArrivalTimes queues <$> vehiclesWithArrivalTimes in
  (omap fst results, foldr Z.add 0%Z (snd <$> results)).

(** [if (scoreIncrease > 0) setScore(prev => prev + scoreIncrease)] *)
Definition commitScore (score scoreIncrease : Z) : Z :=
  if decide (0 < scoreIncrease)%Z then (score + scoreIncrease)%Z else score.

(** One run of the game loop on the vehicles and the score. *)
Definition gameLoop (prevVehicles : list Vehicle) (score : Z) : list Vehicle * Z :=
  let '(updatedVehicles, scoreIncrease) := tick prevVehicles in
  (updatedVehicles, commitScore score scoreIncrease).






(** A going-home vehicle whose [targetIndex] has passed the end of its path. *)
Definition arrivedHome (vehicle : Vehicle) : bool :=
  bool_decide (status vehicle = going_home) &&
  bool_decide (length (path vehicle) ≤ targetIndex vehicle)%nat.

(** The vehicles that a tick keeps. *)
Definition kept (vehicle : Vehicle) : bool :=
  negb (bool_decide (status vehicle = at_home)) && negb (arrivedHome vehicle).
End Scheduler.
End Scheduler.

(** ** A host for evaluation *)

(** A [JSMath] for evaluating the engine on examples: the square root
    truncated to six decimals (exact on the squares of integers), and a
    constant direction. *)
Definition decimal_sqrt (q : Qc) : Qc :=
  Qc_of_Z (Z.sqrt (Qfloor (this (q * frac 1000000000000 1)))) / frac 1000000 1.

Definition decimalMath : JSMath :=
  {| Math_sqrt := decimal_sqrt; Math_atan2 := λ _ _, 0 |}.

(** ** Curves and the grid ([utils.ts]) *)

Module Curves.

(** The quadratic Bezier point at [t], the expression of utils.ts lines 72-73
    (and of RoadGame.tsx lines 121-122). *)
Definition bezierPoint (start_ control end_pt : Point) (t : Qc) : Point :=
  {| x := (1 - t) * (1 - t) * x start_ + frac 2 1 * (1 - t) * t * x control + t * t * x end_pt;
     y := (1 - t) * (1 - t) * y start_ + frac 2 1 * (1 - t) * t * y control + t * t * y end_pt |}.

(** [sampleBezierCurve], utils.ts lines 61-77, for a whole number of
    segments: the points at [t = i / segments], [i = 0 .. segments]. *)
Definition sampleBezierCurve (start_ control end_pt : Point) (segments : nat) : list Point :=
  (λ i : nat, bezierPoint start_ control end_pt (Qc_of_Z (Z.of_nat i) / Qc_of_Z (Z.of_nat segments)))
    <$> seq 0 (S segments).

(** [catmullRomSpline], utils.ts lines 117-133. *)
Definition catmullRomSpline (p0 p1 p2 p3 : Point) (t : Qc) : Point :=
  let t2 := t * t in
  let t3 := t2 * t in
  {| x := frac 1 2 * ((frac 2 1 * x p1) + (- x p0 + x p2) * t
            + (frac 2 1 * x p0 - frac 5 1 * x p1 + frac 4 1 * x p2 - x p3) * t2
            + (- x p0 + frac 3 1 * x p1 - frac 3 1 * x p2 + x p3) * t3);
     y := frac 1 2 * ((frac 2 1 * y p1) + (- y p0 + y p2) * t
            + (frac 2 1 * y p0 - frac 5 1 * y p1 + frac 4 1 * y p2 - y p3) * t2
            + (- y p0 + frac 3 1 * y p1 - frac 3 1 * y p2 + y p3) * t3) |}.

(** [snapToGrid], utils.ts lines 28-33; [GRID_SIZE] is a constant of
    [constants.ts]. *)
Definition snapToGrid (GRID_SIZE : Qc) (p : Point) : Point :=
  {| x := Math_round (x p / GRID_SIZE) * GRID_SIZE;
     y := Math_round (y p / GRID_SIZE) * GRID_SIZE |}.

End Curves.

(** ** End points *)

(** The end points of the roads, with repetition, in the order in which
    [findIntersections] counts them. *)
Definition endpoints (roadList : list Road) : list Point :=
  roadList ≫= λ road, [start road; end_ road].

(** How many times a point occurs in a list. *)
Definition occurrences (p : Point) (l : list Point) : Z :=
  Z.of_nat (length (List.filter (λ q, bool_decide (q = p)) l)).

(** [points.set(key, (points.get(key) || 0) + 1)] *)
Definition bump (points : list (Point * Z)) (p : Point) : list (Point * Z) :=
  JSMap.set p (default 0%Z (JSMap.get p points) + 1)%Z points.

(** ** Reachability *)

Module Reach.
Section Reach.
Context {node edge : Type} `{EqDecision node}.
Variable neighbors : node → list (node * edge).
Variable endNode : node.

(** What the search loop started at [s] has explored: [s] is visited, and
    a visited node is in the queue, or is not the end node and has all
    its neighbours visited. *)
Record Explored (s : node) (queue : list (BFS.entry (node := node) (edge := edge)))
    (visited : list node) : Prop := {
  explored_start : s ∈ visited;
  explored_closed : ∀ v, v ∈ visited →
    (∃ e, e ∈ queue ∧ BFS.enode e = v) ∨
    (v ≠ endNode ∧ ∀ w, BFS.adjacent neighbors v w → w ∈ visited)
}.

(** [a] and [b] follow each other in the list. *)
Definition consecutive (l : list node) (a b : node) : Prop :=
  ∃ l1 l2, l = l1 ++ a :: b :: l2.
End Reach.
End Reach.

(** The point with integer coordinates [(a, b)] and the straight road
    from [(a, b)] to [(c, d)], for the examples. *)
Definition pt (a b : Z) : Point := mkPoint (Qc_of_Z a) (Qc_of_Z b).

Definition straightRoad (name : string) (a b c d : Z) : Road :=
  mkRoad name (pt a b) (pt c d) None.

(** Two roads that cross at (100,50). *)
Definition crossRoads : list Road :=
  [straightRoad "road-1" 0 50 200 50; straightRoad "road-2" 100 0 100 100].

(** Three roads: (0,0)-(0,100) and (0,0)-(100,0) meet at the junction (0,0),
    and (5,-50)-(5,50) crosses the second one at (5,0). *)
Definition nearJunctionRoads : list Road :=
  [straightRoad "road-1" 0 0 0 100; straightRoad "road-2" 0 0 100 0;
   straightRoad "road-3" 5 (-50) 5 50].

(** Constants for the examples. *)
Definition exampleConstants : Constants :=
  {| LANE_OFFSET := frac 4 1; OFFICE_WAIT_TIME := 3000; SCORE_PER_TRIP := 1 |}.

(** A home and its office next to the two crossing roads. *)
Definition exampleBuildings : list Building :=
  [mkBuilding "red-home" (pt 0 40) "red"; mkBuilding "red-office" (pt 100 110) "red"].

(** The crossing of the two roads. *)
Definition crossing : Intersection := {| point := pt 100 50; vehicleCount := 0 |}.

(** A vehicle of the red home at a position, with a status. *)
Definition exampleVehicle (name : string) (a b : Z) (st : Status) : Vehicle :=
  mkVehicle name (pt a b) [pt 0 50; pt 100 50; pt 100 100] 1 2 0 "red" right_lane 0
    "red-home" "red-office" st 1000 [].

(** A closed, decidable statement is settled by evaluation. *)
Ltac by_evaluation := apply (bool_decide_unpack _); vm_compute; reflexivity.

(** ** Theorems: geometry kernel *)

Module GeometryFacts.
Import Geometry.

(** [Math.round] returns an integer at most one half away from its argument. *)
Lemma Math_round_nearest (q : Qc) :
  ∃ z : Z, Math_round q = Qc_of_Z z ∧ q - frac 1 2 < Qc_of_Z z ∧ Qc_of_Z z ≤ q + frac 1 2.
Proof.
  exists (Qfloor (this (q + frac 1 2))). split; [reflexivity|].
  assert (Hq : (this (q + frac 1 2) == this q + (1 # 2))%Q).
  { unfold frac. simpl. rewrite !Qred_correct. reflexivity. }
  assert (Hm : (this (q - frac 1 2) == this q - (1 # 2))%Q).
  { unfold Qcminus, Qcopp, frac. simpl. rewrite !Qred_correct. reflexivity. }
  pose proof (Qfloor_le (this (q + frac 1 2))) as Hle.
  pose proof (Qlt_floor (this (q + frac 1 2))) as Hlt.
  set (z := Qfloor (this (q + frac 1 2))) in *.
  assert (Hz1 : (inject_Z (z + 1) == inject_Z z + 1)%Q) by (rewrite inject_Z_plus; reflexivity).
  split.
  - unfold Qclt. simpl. rewrite Hm. rewrite Hq, Hz1 in Hlt. lra.
  - unfold Qcle. simpl. exact Hle.
Qed.


Lemma Math_abs_small_nonzero (c : Qc) : ¬ Math_abs c < frac 1 10000 → c ≠ 0.
Proof.
  intros H ->. apply H. reflexivity.
Qed.

(** The quotients the code computes are parametric positions. *)
Lemma parametric_exists (p1 p2 p3 p4 : Point) :
  cross_of p1 p2 p3 p4 ≠ 0 →
  parametric p1 p2 p3 p4
    (((x p3 - x p1) * (y p4 - y p3) - (y p3 - y p1) * (x p4 - x p3)) / cross_of p1 p2 p3 p4)
    (((x p3 - x p1) * (y p2 - y p1) - (y p3 - y p1) * (x p2 - x p1)) / cross_of p1 p2 p3 p4).
Proof.
  intros Hc. unfold parametric, cross_of in *. split; field; exact Hc.
Qed.




End GeometryFacts.

(** ** Theorems: breadth-first search *)

Module BFSFacts.
Import BFS.
Section BFSFacts.
Context {node edge : Type} `{EqDecision node}.
Variable neighbors : node → list (node * edge).
Variable endNode : node.

Local Abbreviation entry := (@entry node edge).
Local Abbreviation is_walk := (is_walk neighbors).
Local Abbreviation walk_from_to := (walk_from_to neighbors).
Local Abbreviation visit := (@visit node edge _).
Local Abbreviation search := (search neighbors endNode).
Local Abbreviation adjacent := (adjacent neighbors).
Local Abbreviation Inv := (Inv neighbors).

(** *** Walks *)

Lemma is_walk_cons (a b : node) (p : list node) :
  is_walk (a :: b :: p) ↔ adjacent a b ∧ is_walk (b :: p).
Proof. reflexivity. Qed.

Lemma is_walk_snoc (p : list node) (y v : node) :
  is_walk p → last p = Some y → adjacent y v → is_walk (p ++ [v]).
Proof.
  induction p as [|a p IH]; [intros []|].
  destruct p as [|b p].
  - intros _ [= ->] Hadj. simpl. split; [exact Hadj|exact I].
  - intros [Hab Hw] Hl Hadj. rewrite last_cons_cons in Hl.
    change (is_walk (a :: b :: (p ++ [v]))). apply is_walk_cons. split; [exact Hab|].
    exact (IH Hw Hl Hadj).
Qed.

Lemma walk_snoc (s y v : node) (p : list node) :
  walk_from_to s y p → adjacent y v → walk_from_to s v (p ++ [v]).
Proof.
  intros (Hw & Hh & Hl) Hadj. split; [|split].
  - exact (is_walk_snoc p y v Hw Hl Hadj).
  - destruct p; [discriminate|]. exact Hh.
  - apply last_snoc.
Qed.

Lemma is_walk_unsnoc (p : list node) (v : node) :
  is_walk (p ++ [v]) → p ≠ [] →
  is_walk p ∧ ∃ y, last p = Some y ∧ adjacent y v.
Proof.
  induction p as [|a p IH]; [congruence|]. intros Hw _.
  destruct p as [|b p].
  - destruct Hw as [Hadj _]. split; [exact I|]. exists a. split; [reflexivity|exact Hadj].
  - change (is_walk (a :: b :: (p ++ [v]))) in Hw. apply is_walk_cons in Hw as [Hab Hw].
    destruct (IH Hw) as (Hw' & y & Hl & Hadj); [congruence|].
    split; [apply is_walk_cons; split; assumption|].
    exists y. rewrite last_cons_cons. split; assumption.
Qed.

Lemma walk_unsnoc (s v : node) (q : list node) :
  walk_from_to s v q → (2 ≤ length q)%nat →
  ∃ q0 y, q = q0 ++ [v] ∧ walk_from_to s y q0 ∧ adjacent y v.
Proof.
  intros (Hw & Hh & Hl) Hlen.
  destruct (decide (q = [])) as [->|Hne]; [simpl in Hlen; lia|].
  destruct (exists_last Hne) as (q0 & v' & ->).
  rewrite last_snoc in Hl. injection Hl as ->.
  assert (Hq0 : q0 ≠ []).
  { intros ->. simpl in Hlen. lia. }
  destruct (is_walk_unsnoc q0 v Hw Hq0) as (Hw0 & y & Hl0 & Hadj).
  exists q0, y. split; [reflexivity|]. split; [|exact Hadj].
  split; [exact Hw0|]. split; [|exact Hl0].
  destruct q0; [congruence|]. exact Hh.
Qed.

Lemma walk_nonempty (s v : node) (q : list node) :
  walk_from_to s v q → (1 ≤ length q)%nat.
Proof. intros (Hw & _). destruct q; simpl in *; [contradiction|lia]. Qed.

Lemma walk_single (s v : node) (q : list node) :
  walk_from_to s v q → (length q ≤ 1)%nat → v = s.
Proof.
  intros (Hw & Hh & Hl) Hlen. destruct q as [|a [|b q]]; simpl in *; try lia; try contradiction.
  congruence.
Qed.

(** *** The inner loop *)

Lemma set_add_elem (w z : node) (vis : list node) : z ∈ set_add w vis ↔ z = w ∨ z ∈ vis.
Proof.
  unfold set_add. destruct (decide (w ∈ vis)) as [Hin|Hnin].
  - split; [auto|]. intros [->|]; assumption.
  - rewrite elem_of_app, list_elem_of_singleton. tauto.
Qed.

Lemma fold_visit (point : node) (path : list node) (pathRoads : list edge)
    (nbs : list (node * edge)) (queue0 : list entry) (visited0 : list node) :
  ∃ pushes : list entry,
    (fold_left (visit point path pathRoads) nbs (queue0, visited0)).1 = queue0 ++ pushes ∧
    Forall (λ e, epath e = path ++ [enode e] ∧ enode e ∈ (fst <$> nbs) ∧ enode e ∉ visited0) pushes ∧
    (∀ z, z ∈ (fold_left (visit point path pathRoads) nbs (queue0, visited0)).2 ↔
          z ∈ visited0 ∨ z ∈ (enode <$> pushes)) ∧
    (∀ w, w ∈ (fst <$> nbs) →
          w ∈ (fold_left (visit point path pathRoads) nbs (queue0, visited0)).2).
Proof.
  revert queue0 visited0. induction nbs as [|[w r] nbs IH]; intros queue0 visited0.
  - exists []. simpl. rewrite app_nil_r. split; [reflexivity|]. split; [constructor|].
    split; [|intros w Hw; inversion Hw]. intros z. rewrite elem_of_nil. tauto.
  - simpl fold_left. unfold visit at 2. destruct (decide (w ∈ visited0)) as [Hin|Hnin].
    + destruct (IH queue0 visited0) as (pushes & Hq & Hp & Hv & Hn).
      exists pushes. split; [exact Hq|]. split.
      * eapply Forall_impl; [exact Hp|]. intros e (? & ? & ?). split; [assumption|].
        split; [|assumption]. rewrite fmap_cons. apply elem_of_cons. right. assumption.
      * split; [exact Hv|]. intros w' Hw'. rewrite fmap_cons in Hw'.
        apply elem_of_cons in Hw' as [->|Hw']; [|exact (Hn _ Hw')].
        apply Hv. left. exact Hin.
    + destruct (IH (queue0 ++ [(w, path ++ [w], pathRoads ++ [r])]) (set_add w visited0))
        as (pushes & Hq & Hp & Hv & Hn).
      exists ((w, path ++ [w], pathRoads ++ [r]) :: pushes).
      split; [rewrite Hq, <- app_assoc; reflexivity|]. split.
      * constructor.
        -- split; [reflexivity|]. split; [|exact Hnin]. rewrite fmap_cons. apply elem_of_cons.
           left. reflexivity.
        -- eapply Forall_impl; [exact Hp|]. intros e (? & ? & Hne). split; [assumption|].
           split; [rewrite fmap_cons; apply elem_of_cons; right; assumption|].
           intros Hc. apply Hne. apply set_add_elem. right. exact Hc.
      * split.
        -- intros z. rewrite Hv, set_add_elem, fmap_cons, elem_of_cons. unfold enode at 3. simpl. tauto.
        -- intros w' Hw'. rewrite fmap_cons in Hw'.
           apply elem_of_cons in Hw' as [->|Hw']; [|exact (Hn _ Hw')].
           apply Hv. left. apply set_add_elem. left. reflexivity.
Qed.
Lemma sorted_app {A} (R : A → A → Prop) (l1 l2 : list A) :
  StronglySorted R l1 → StronglySorted R l2 →
  (∀ a b, a ∈ l1 → b ∈ l2 → R a b) → StronglySorted R (l1 ++ l2).
Proof.
  induction l1 as [|a l1 IH]; intros H1 H2 H12; [exact H2|].
  apply StronglySorted_inv in H1 as [H1 Ha]. simpl. constructor.
  - apply IH; [exact H1|exact H2|]. intros ? ? ? ?. apply H12; [right|]; assumption.
  - apply Forall_app. split; [exact Ha|]. apply Forall_forall. intros b Hb.
    apply H12; [left|exact Hb].
Qed.

Lemma sorted_level (k : nat) (l : list entry) :
  Forall (λ e, plen e = k) l → StronglySorted (λ a b, plen a ≤ plen b)%nat l.
Proof.
  induction 1 as [|e l He Hl IH]; constructor; [exact IH|].
  eapply Forall_impl; [exact Hl|]. simpl. intros. lia.
Qed.

Lemma Inv_init (s : node) : Inv s [(s, [s], [])] [s].
Proof.
  split.
  - intros e ->%list_elem_of_singleton. split; [|left]. repeat split.
  - intros e ->%list_elem_of_singleton. split; [apply NoDup_singleton|]. intros n Hn. exact Hn.
  - repeat constructor.
  - intros h e [= <-] ->%list_elem_of_singleton. unfold plen. simpl. lia.
  - intros e q ->%list_elem_of_singleton Hq. apply (walk_nonempty _ _ _ Hq).
  - intros v ->%list_elem_of_singleton. left. exists (s, [s], []). split; [left|reflexivity].
  - intros h v q [= <-] Hq Hlen. rewrite (walk_single _ _ _ Hq Hlen). left.
Qed.

Lemma Inv_step (s point : node) (path : list node) (pathRoads : list edge)
    (rest : list entry) (visited : list node) :
  Inv s ((point, path, pathRoads) :: rest) visited →
  Inv s (fold_left (visit point path pathRoads) (neighbors point) (rest, visited)).1
        (fold_left (visit point path pathRoads) (neighbors point) (rest, visited)).2.
Proof.
  intros HI.
  destruct (fold_visit point path pathRoads (neighbors point) rest visited)
    as (pushes & -> & Hp & Hv & Hn).
  set (visited' := (fold_left (visit point path pathRoads) (neighbors point) (rest, visited)).2) in *.
  set (h := (point, path, pathRoads)) in *.
  rewrite Forall_forall in Hp.
  assert (Hsub : ∀ z, z ∈ visited → z ∈ visited') by (intros z Hz; apply Hv; left; exact Hz).
  assert (Hpv : ∀ e, e ∈ pushes → enode e ∈ visited').
  { intros e He. apply Hv. right. apply list_elem_of_fmap. exists e. split; [reflexivity|exact He]. }
  assert (Hh : h ∈ h :: rest) by left.
  assert (Hplen : ∀ e, e ∈ pushes → plen e = S (plen h)).
  { intros e He. destruct (Hp e He) as (Hpath & _). unfold plen. rewrite Hpath, length_app.
    simpl. unfold epath. simpl. lia. }
  assert (Hrest_lo : ∀ e, e ∈ rest → (plen h ≤ plen e)%nat).
  { intros e He. pose proof (inv_sorted _ _ _ _ HI) as Hs.
    apply StronglySorted_inv in Hs as [_ Hs]. rewrite Forall_forall in Hs. apply Hs, He. }
  assert (Hrest_hi : ∀ e, e ∈ rest → (plen e ≤ S (plen h))%nat).
  { intros e He. apply (inv_band _ _ _ _ HI h e); [reflexivity|right; exact He]. }
  assert (Hfresh : ∀ e q, e ∈ pushes → walk_from_to s (enode e) q → (S (plen h) ≤ length q)%nat).
  { intros e q He Hq. destruct (Hp e He) as (_ & _ & Hnv).
    destruct (decide (length q ≤ plen h)%nat) as [Hle|]; [|lia].
    exfalso. apply Hnv. apply (inv_level _ _ _ _ HI h (enode e) q); [reflexivity|exact Hq|exact Hle]. }
  split.
  - intros e [He|He]%elem_of_app.
    + destruct (inv_walk _ _ _ _ HI e) as [Hw Hin]; [right; exact He|]. split; [exact Hw|auto].
    + split; [|auto]. destruct (Hp e He) as (Hpath & Hadj & _). rewrite Hpath.
      apply (walk_snoc s point); [|exact Hadj]. apply (inv_walk _ _ _ _ HI h Hh).
  - intros e [He|He]%elem_of_app.
    + destruct (inv_nodup _ _ _ _ HI e) as [Hnd Hin]; [right; exact He|]. split; [exact Hnd|auto].
    + destruct (Hp e He) as (Hpath & _ & Hnv). destruct (inv_nodup _ _ _ _ HI h Hh) as [Hnd Hin].
      rewrite Hpath. split.
      * apply NoDup_app. split; [exact Hnd|]. split; [|apply NoDup_singleton].
        intros n Hin' ->%list_elem_of_singleton. apply Hnv, Hin, Hin'.
      * intros n [Hin'| ->%list_elem_of_singleton]%elem_of_app; [apply Hsub, Hin, Hin'|auto].
  - apply sorted_app.
    + pose proof (inv_sorted _ _ _ _ HI) as Hs. apply StronglySorted_inv in Hs as [Hs _]. exact Hs.
    + apply (sorted_level (S (plen h))). apply Forall_forall. exact Hplen.
    + intros a b Ha Hb. rewrite (Hplen b Hb). apply Hrest_hi, Ha.
  - intros h' e Hh' He.
    assert (Hlo : (plen h ≤ plen h')%nat).
    { destruct rest as [|r rest'].
      - destruct pushes as [|p pushes']; [discriminate|]. injection Hh' as <-.
        rewrite (Hplen p); [lia|left].
      - injection Hh' as <-. apply Hrest_lo. left. }
    apply elem_of_app in He as [He|He]; [pose proof (Hrest_hi e He); lia|].
    rewrite (Hplen e He). lia.
  - intros e q [He|He]%elem_of_app Hq.
    + apply (inv_min _ _ _ _ HI e q); [right; exact He|exact Hq].
    + rewrite (Hplen e He). exact (Hfresh e q He Hq).
  - intros v Hvis. apply Hv in Hvis as [Hvis|Hvis].
    + destruct (inv_done _ _ _ _ HI v Hvis) as [(e & [->|He]%elem_of_cons & <-)|Hall].
      * right. intros w Hw. apply Hn, Hw.
      * left. exists e. split; [apply elem_of_app; left; exact He|reflexivity].
      * right. intros w Hw. apply Hsub, Hall, Hw.
    + apply list_elem_of_fmap in Hvis as (e & -> & He). left. exists e.
      split; [apply elem_of_app; right; exact He|reflexivity].
  - intros h' v q Hh' Hq Hlen.
    destruct (decide (length q ≤ plen h)%nat) as [Hle|Hgt].
    { apply Hsub. apply (inv_level _ _ _ _ HI h v q); [reflexivity|exact Hq|exact Hle]. }
    assert (Hhi : (plen h' ≤ S (plen h))%nat).
    { destruct rest as [|r rest'].
      - destruct pushes as [|p pushes']; [discriminate|]. injection Hh' as <-.
        rewrite (Hplen p); [lia|left].
      - injection Hh' as <-. apply Hrest_hi. left. }
    assert (Hq2 : (2 ≤ length q)%nat).
    { pose proof (walk_nonempty _ _ _ (proj1 (inv_walk _ _ _ _ HI h Hh))) as Hne.
      fold (plen h) in Hne. lia. }
    destruct (walk_unsnoc s v q Hq Hq2) as (q0 & y & -> & Hq0 & Hadj).
    rewrite length_app in Hlen, Hgt. simpl in Hlen, Hgt.
    assert (Hy : y ∈ visited).
    { apply (inv_level _ _ _ _ HI h y q0); [reflexivity|exact Hq0|lia]. }
    destruct (inv_done _ _ _ _ HI y Hy) as [(e & [->|He]%elem_of_cons & <-)|Hall].
    + apply Hn, Hadj.
    + exfalso. pose proof (inv_min _ _ _ _ HI e q0 (proj2 (elem_of_cons _ _ _) (or_intror He)) Hq0) as Hmin.
      destruct rest as [|r rest']; [inversion He|]. injection Hh' as <-.
      pose proof (inv_sorted _ _ _ _ HI) as Hs.
      apply StronglySorted_inv in Hs as [Hs _].
      assert (plen r ≤ plen e)%nat.
      { apply elem_of_cons in He as [->|He]; [lia|].
        apply StronglySorted_inv in Hs as [_ Hs]. rewrite Forall_forall in Hs. apply Hs, He. }
      lia.
    + apply Hsub, Hall, Hadj.
Qed.

(** *** The search returns a shortest walk without repetition *)

Lemma search_sound (s : node) (fuel : nat) (queue : list entry) (visited : list node)
    (p : list node) :
  Inv s queue visited →
  search fuel queue visited = Some (Some p) →
  walk_from_to s endNode p ∧ NoDup p ∧
  ∀ q, walk_from_to s endNode q → (length p ≤ length q)%nat.
Proof.
  revert queue visited. induction fuel as [|fuel IH]; intros queue visited HI; [discriminate|].
  simpl. destruct queue as [|[[point path] pathRoads] rest]; [discriminate|].
  destruct (decide (point = endNode)) as [->|Hne].
  - intros [= <-]. assert (Hh : (endNode, path, pathRoads) ∈ (endNode, path, pathRoads) :: rest) by left.
    split; [apply (inv_walk _ _ _ _ HI _ Hh)|]. split; [apply (inv_nodup _ _ _ _ HI _ Hh)|].
    intros q Hq. apply (inv_min _ _ _ _ HI _ q Hh Hq).
  - pose proof (Inv_step s point path pathRoads rest visited HI) as HI'.
    destruct (fold_left (visit point path pathRoads) (neighbors point) (rest, visited))
      as [queue' visited'].
    intros Hs. exact (IH queue' visited' HI' Hs).
Qed.

(** *** The bound on the iterations is never reached *)

Lemma unvisited_mono (universe visited : list node) (w : node) :
  (unvisited universe (set_add w visited) ≤ unvisited universe visited)%nat.
Proof.
  unfold unvisited. induction universe as [|u universe IH]; [reflexivity|]. simpl.
  destruct (decide (u ∈ visited)) as [Hin|Hnin].
  - rewrite (bool_decide_eq_false_2 (u ∉ visited)) by tauto.
    rewrite (bool_decide_eq_false_2 (u ∉ set_add w visited)); [exact IH|].
    intros Hc. apply Hc, set_add_elem. right. exact Hin.
  - rewrite (bool_decide_eq_true_2 (u ∉ visited)) by exact Hnin.
    destruct (bool_decide (u ∉ set_add w visited)); simpl; lia.
Qed.

Lemma unvisited_add (universe visited : list node) (w : node) :
  w ∈ universe → w ∉ visited →
  (S (unvisited universe (set_add w visited)) ≤ unvisited universe visited)%nat.
Proof.
  unfold unvisited. induction universe as [|u universe IH]; [intros Hw; inversion Hw|].
  intros Hw Hnv. simpl.
  destruct (decide (u = w)) as [->|Hne].
  - rewrite (bool_decide_eq_true_2 (w ∉ visited)) by exact Hnv.
    rewrite (bool_decide_eq_false_2 (w ∉ set_add w visited)).
    + simpl. pose proof (unvisited_mono universe visited w) as Hm. unfold unvisited in Hm. lia.
    + intros Hc. apply Hc, set_add_elem. left. reflexivity.
  - apply elem_of_cons in Hw as [->|Hw]; [congruence|]. specialize (IH Hw Hnv).
    destruct (decide (u ∈ visited)) as [Hin|Hnin].
    + rewrite (bool_decide_eq_false_2 (u ∉ visited)) by tauto.
      rewrite (bool_decide_eq_false_2 (u ∉ set_add w visited)); [exact IH|].
      intros Hc. apply Hc, set_add_elem. right. exact Hin.
    + rewrite (bool_decide_eq_true_2 (u ∉ visited)) by exact Hnin.
      rewrite (bool_decide_eq_true_2 (u ∉ set_add w visited)).
      * simpl. lia.
      * rewrite set_add_elem. intros [?|?]; [congruence|contradiction].
Qed.

Lemma fold_visit_measure (universe : list node) (point : node) (path : list node)
    (pathRoads : list edge) (nbs : list (node * edge)) (queue0 : list entry)
    (visited0 : list node) :
  (∀ w, w ∈ (fst <$> nbs) → w ∈ universe) →
  (length (fold_left (visit point path pathRoads) nbs (queue0, visited0)).1
   + unvisited universe (fold_left (visit point path pathRoads) nbs (queue0, visited0)).2
   ≤ length queue0 + unvisited universe visited0)%nat.
Proof.
  revert queue0 visited0. induction nbs as [|[w r] nbs IH]; intros queue0 visited0 HU.
  - simpl. lia.
  - simpl fold_left.
    assert (HU' : ∀ w', w' ∈ (fst <$> nbs) → w' ∈ universe).
    { intros w' Hw'. apply HU. rewrite fmap_cons. right. exact Hw'. }
    destruct (decide (w ∈ visited0)) as [Hin|Hnin].
    + replace (visit point path pathRoads (queue0, visited0) (w, r)) with (queue0, visited0)
        by (unfold visit; rewrite decide_True by exact Hin; reflexivity).
      exact (IH _ _ HU').
    + replace (visit point path pathRoads (queue0, visited0) (w, r))
        with (queue0 ++ [(w, path ++ [w], pathRoads ++ [r])], set_add w visited0)
        by (unfold visit; rewrite decide_False by exact Hnin; reflexivity).
      etransitivity; [exact (IH _ _ HU')|]. rewrite length_app. simpl.
      assert (Hw : w ∈ universe) by (apply HU; rewrite fmap_cons; left).
      pose proof (unvisited_add universe visited0 w Hw Hnin). lia.
Qed.

Lemma search_total (universe : list node) (fuel : nat) (queue : list entry)
    (visited : list node) :
  (∀ n w, w ∈ (fst <$> neighbors n) → w ∈ universe) →
  (length queue + unvisited universe visited < fuel)%nat →
  search fuel queue visited ≠ None.
Proof.
  intros HU. revert queue visited. induction fuel as [|fuel IH]; intros queue visited Hm; [lia|].
  simpl. destruct queue as [|[[point path] pathRoads] rest]; [discriminate|].
  destruct (decide (point = endNode)); [discriminate|].
  pose proof (fold_visit_measure universe point path pathRoads (neighbors point) rest visited
                (HU point)) as Hf.
  destruct (fold_left (visit point path pathRoads) (neighbors point) (rest, visited))
    as [queue' visited'].
  apply IH. simpl in Hf, Hm. lia.
Qed.
End BFSFacts.
End BFSFacts.

(** ** Theorems: containers *)

Module JSMapFacts.
Section JSMapFacts.
Context {K V : Type} `{EqDecision K}.

Lemma get_elem (k : K) (v : V) (m : list (K * V)) : JSMap.get k m = Some v → (k, v) ∈ m.
Proof.
  induction m as [|[k' v'] m IH]; simpl; [discriminate|].
  destruct (decide (k = k')) as [->|]; [intros [= ->]; left|]. intros Hg. right. exact (IH Hg).
Qed.

Lemma get_set_eq (k : K) (v : V) (m : list (K * V)) : JSMap.get k (JSMap.set k v m) = Some v.
Proof.
  induction m as [|[k' v'] m IH]; simpl.
  - rewrite decide_True by reflexivity. reflexivity.
  - destruct (decide (k = k')) as [->|Hne]; simpl.
    + rewrite decide_True by reflexivity. reflexivity.
    + rewrite decide_False by exact Hne. exact IH.
Qed.

Lemma get_set_ne (k k' : K) (v : V) (m : list (K * V)) :
  k ≠ k' → JSMap.get k' (JSMap.set k v m) = JSMap.get k' m.
Proof.
  intros Hne. induction m as [|[k0 v0] m IH]; simpl.
  - rewrite decide_False by congruence. reflexivity.
  - destruct (decide (k = k0)) as [->|Hne0]; simpl.
    + rewrite !decide_False by congruence. reflexivity.
    + destruct (decide (k' = k0)); [reflexivity|exact IH].
Qed.
End JSMapFacts.
End JSMapFacts.

(** ** Theorems: path finder *)

Module PathFinderFacts.
Import Geometry PathFinder.
Section PathFinderFacts.
Context {math : JSMath}.

Lemma neighbours_in_universe (m : Connections) (n w : Point) :
  w ∈ (fst <$> neighborsOf m n) → w ∈ neighbourPoints m.
Proof.
  unfold neighborsOf, neighbourPoints. destruct (JSMap.get n m) as [l|] eqn:Hg; simpl.
  - intros Hw. apply list_elem_of_bind. exists (n, l). split; [exact Hw|].
    exact (JSMapFacts.get_elem _ _ _ Hg).
  - intros Hw. inversion Hw.
Qed.

(** The bound [searchBound] on the iterations of the search loop is never
    reached: the [None] of [findPath] after the snapping is the
    [return null] that follows an emptied queue. *)
Lemma searchBound_not_reached (m : Connections) (startNode endNode : Point) :
  BFS.search (neighborsOf m) endNode (searchBound m) [(startNode, [startNode], [])] [startNode]
  ≠ None.
Proof.
  apply (BFSFacts.search_total (neighborsOf m) endNode (neighbourPoints m)).
  - intros n w. apply neighbours_in_universe.
  - unfold searchBound, BFS.unvisited. simpl.
    pose proof (List.filter_length_le (λ n, bool_decide (n ∉ [startNode])) (neighbourPoints m)). lia.
Qed.

(** What a returned path is: the result of the search between the two
    snapped nodes. *)
Lemma findPath_Some (start_ end_pt : Point) (roadList : list Road) (p : list Point) :
  findPath start_ end_pt roadList = Some p →
  ∃ s ds e de,
    closest start_ (allNodes roadList) = Some (s, ds) ∧
    closest end_pt (allNodes roadList) = Some (e, de) ∧
    BFS.search (graph roadList) e (searchBound (buildConnections roadList))
      [(s, [s], [])] [s] = Some (Some p).
Proof.
  unfold findPath. destruct (decide (length roadList = 0%nat)); [discriminate|].
  destruct (closest start_ (allNodes roadList)) as [[s ds]|]; [|discriminate].
  destruct (closest end_pt (allNodes roadList)) as [[e de]|]; [|discriminate].
  destruct (decide (MAX_BUILDING_TO_ROAD_DISTANCE < ds)); [discriminate|].
  destruct (decide (MAX_BUILDING_TO_ROAD_DISTANCE < de)); [discriminate|].
  fold (graph roadList).
  destruct (BFS.search _ _ _ _ _) as [r|] eqn:Hs; [|discriminate].
  intros ->. exists s, ds, e, de. auto.
Qed.

(** C2: a returned path is a path of the routable graph from the snapped
    start node to the snapped end node, and no path of that graph between
    these two nodes has strictly fewer edges. *)
Theorem findPath_fewest_edges (start_ end_pt : Point) (roadList : list Road) (p : list Point) :
  findPath start_ end_pt roadList = Some p →
  ∃ s ds e de,
    closest start_ (allNodes roadList) = Some (s, ds) ∧
    closest end_pt (allNodes roadList) = Some (e, de) ∧
    BFS.walk_from_to (graph roadList) s e p ∧
    ∀ q, BFS.walk_from_to (graph roadList) s e q → ¬ (edgeCount q < edgeCount p)%nat.
Proof.
  intros Hf. destruct (findPath_Some _ _ _ _ Hf) as (s & ds & e & de & Hs & He & Hb).
  exists s, ds, e, de. split; [exact Hs|]. split; [exact He|].
  destruct (BFSFacts.search_sound _ _ s _ _ _ p (BFSFacts.Inv_init _ s) Hb) as (Hw & _ & Hmin).
  split; [exact Hw|]. intros q Hq. specialize (Hmin q Hq). unfold edgeCount. lia.
Qed.

(** C10: the nodes of a returned path are pairwise distinct. *)
Theorem findPath_nodes_distinct (start_ end_pt : Point) (roadList : list Road) (p : list Point) :
  findPath start_ end_pt roadList = Some p → NoDup p.
Proof.
  intros Hf. destruct (findPath_Some _ _ _ _ Hf) as (s & ds & e & de & _ & _ & Hb).
  exact (proj1 (proj2 (BFSFacts.search_sound _ _ s _ _ _ p (BFSFacts.Inv_init _ s) Hb))).
Qed.

(** *** Snapping *)




Lemma set_add_nonempty (k : Point) (s : list Point) : set_add k s ≠ [].
Proof.
  unfold set_add. destruct (decide (k ∈ s)) as [Hin|_].
  - intros ->. inversion Hin.
  - destruct s; discriminate.
Qed.

Lemma set_add_keeps (k : Point) (s : list Point) : s ≠ [] → set_add k s ≠ [].
Proof. intros _. apply set_add_nonempty. Qed.





End PathFinderFacts.

(** From (0,40) to (100,110) over the two crossing roads: three nodes. *)
Lemma findPath_fewest_edges_witness :
  findPath (math := decimalMath) (pt 0 40) (pt 100 110) crossRoads
    = Some [pt 0 50; pt 100 50; pt 100 100] ∧
  ∃ s ds e de,
    closest (math := decimalMath) (pt 0 40) (allNodes crossRoads) = Some (s, ds) ∧
    closest (math := decimalMath) (pt 100 110) (allNodes crossRoads) = Some (e, de) ∧
    BFS.walk_from_to (graph (math := decimalMath) crossRoads) s e [pt 0 50; pt 100 50; pt 100 100] ∧
    ∀ q, BFS.walk_from_to (graph (math := decimalMath) crossRoads) s e q →
         ¬ (edgeCount q < edgeCount [pt 0 50; pt 100 50; pt 100 100])%nat.
Proof.
  assert (Hf : findPath (math := decimalMath) (pt 0 40) (pt 100 110) crossRoads
                 = Some [pt 0 50; pt 100 50; pt 100 100]) by by_evaluation.
  split; [exact Hf|].
  exact (findPath_fewest_edges (pt 0 40) (pt 100 110) crossRoads _ Hf).
Defined.

Lemma findPath_nodes_distinct_witness :
  findPath (math := decimalMath) (pt 0 40) (pt 100 110) crossRoads
    = Some [pt 0 50; pt 100 50; pt 100 100] ∧
  NoDup [pt 0 50; pt 100 50; pt 100 100].
Proof.
  assert (Hf : findPath (math := decimalMath) (pt 0 40) (pt 100 110) crossRoads
                 = Some [pt 0 50; pt 100 50; pt 100 100]) by by_evaluation.
  split; [exact Hf|].
  exact (findPath_nodes_distinct (pt 0 40) (pt 100 110) crossRoads _ Hf).
Defined.



End PathFinderFacts.

(** ** Theorems: road network builder *)

Module NetworkFacts.
Import Geometry Network.

Lemma square_nonneg (d : Qc) : 0 ≤ d * d.
Proof.
  unfold Qcle. simpl. rewrite !Qred_correct. nra.
Qed.

Lemma square_of_large (d : Qc) : ¬ Math_abs d < frac 5 1 → frac 25 1 ≤ d * d.
Proof.
  unfold Math_abs. intros Hn. apply Qcnot_lt_le in Hn.
  destruct (decide (d < 0)) as [Hneg|Hpos].
  - unfold Qcle, Qclt in *. simpl in *. rewrite !Qred_correct in *. nra.
  - apply Qcnot_lt_le in Hpos. unfold Qcle in *. simpl in *. rewrite !Qred_correct in *. nra.
Qed.

Lemma apart_dist2 (a b : Point) : apart a b → frac 25 1 ≤ dist2 a b.
Proof.
  intros Hap. unfold dist2.
  replace ((x b - x a) * (x b - x a)) with ((x a - x b) * (x a - x b)) by ring.
  replace ((y b - y a) * (y b - y a)) with ((y a - y b) * (y a - y b)) by ring.
  destruct (decide (Math_abs (x a - x b) < frac 5 1)) as [Hx|Hx].
  - destruct (decide (Math_abs (y a - y b) < frac 5 1)) as [Hy|Hy]; [exfalso; apply Hap; auto|].
    pose proof (square_of_large _ Hy) as H1. pose proof (square_nonneg (x a - x b)) as H2.
    replace (frac 25 1) with (0 + frac 25 1) by ring. apply Qcplus_le_compat; assumption.
  - pose proof (square_of_large _ Hx) as H1. pose proof (square_nonneg (y a - y b)) as H2.
    replace (frac 25 1) with (frac 25 1 + 0) by ring. apply Qcplus_le_compat; assumption.
Qed.

Lemma recorded_nearby_false (result : list Intersection) (i : Point) :
  recorded_nearby result i = false → ∀ r, r ∈ result → apart (point r) i.
Proof.
  unfold recorded_nearby. intros He r Hr [Hx Hy].
  assert (Ht : existsb (λ r, bool_decide (Math_abs (x (point r) - x i) < frac 5 1) &&
                bool_decide (Math_abs (y (point r) - y i) < frac 5 1)) result = true).
  { apply existsb_exists. exists r. split; [apply list_elem_of_In, Hr|].
    rewrite !bool_decide_eq_true_2 by assumption. reflexivity. }
  congruence.
Qed.

Lemma addCrossing_apart (roadList : list Road) (init result : list Intersection) (pr : Road * Road) :
  pr ∈ index_pairs roadList →
  crossings_apart roadList init result → crossings_apart roadList init (addCrossing result pr).
Proof.
  intros Hpr HI. destruct pr as [road1 road2]. unfold addCrossing.
  destruct (straight road1 && straight road2) eqn:Hst; [|exact HI].
  destruct (getLineIntersection _ _ _ _) as [i|] eqn:Hg; [|exact HI].
  destruct (recorded_nearby result i) eqn:Hr; [exact HI|].
  destruct HI as (crossings & -> & Hc & Hap).
  exists (crossings ++ [{| point := i; vehicleCount := 0 |}]).
  split; [rewrite app_assoc; reflexivity|]. split.
  - apply Forall_app. split; [exact Hc|]. constructor; [|constructor].
    split; [reflexivity|]. exists road1, road2. apply andb_prop in Hst as [H1 H2]. auto.
  - intros j k a b Hjk Hk Ha Hb.
    apply lookup_app_Some in Hb as [Hb|[Hlen Hb]].
    + apply lookup_lt_Some in Hb as Hklt. rewrite lookup_app_l in Ha by lia.
      exact (Hap j k a b Hjk Hk Ha Hb).
    + destruct (k - length (init ++ crossings))%nat eqn:Hd; simpl in Hb; [|discriminate].
      injection Hb as <-. simpl. rewrite lookup_app_l in Ha by lia.
      apply (recorded_nearby_false _ _ Hr a). apply list_elem_of_lookup. exists j. exact Ha.
Qed.

Lemma findIntersections_invariant (roadList : list Road) :
  crossings_apart roadList (junctions roadList) (findIntersections roadList).
Proof.
  unfold findIntersections.
  assert (Hall : ∀ pr, pr ∈ index_pairs roadList → pr ∈ index_pairs roadList) by auto.
  assert (H0 : crossings_apart roadList (junctions roadList) (junctions roadList)).
  { exists []. rewrite app_nil_r. split; [reflexivity|]. split; [constructor|].
    intros j k a b Hjk Hk _ Hb. apply lookup_lt_Some in Hb. lia. }
  revert Hall H0. generalize (junctions roadList) at 2 4.
  generalize (index_pairs roadList) at 1 3.
  induction l as [|pr prs IH]; intros result Hall H0; [exact H0|].
  simpl. apply IH.
  - intros pr' Hpr'. apply Hall. right. exact Hpr'.
  - apply addCrossing_apart; [apply Hall; left|exact H0].
Qed.

(** C4 (as amended): the output is the junctions followed by the
    crossings; a crossing is added only when no intersection recorded
    before it is within 5 on both axes, so that every crossing of the
    output differs by 5 or more, on one axis at least, from every
    intersection before it: their Euclidean distance is 5 or more. *)
Theorem findIntersections_crossings_apart (roadList : list Road) :
  ∃ crossings,
    findIntersections roadList = junctions roadList ++ crossings ∧
    Forall (crossing_of roadList) crossings ∧
    ∀ j k a b, (j < k)%nat → (length (junctions roadList) ≤ k)%nat →
      findIntersections roadList !! j = Some a →
      findIntersections roadList !! k = Some b →
      apart (point a) (point b) ∧ frac 25 1 ≤ dist2 (point a) (point b).
Proof.
  destruct (findIntersections_invariant roadList) as (crossings & Heq & Hc & Hap).
  exists crossings. split; [exact Heq|]. split; [exact Hc|].
  intros j k a b Hjk Hk Ha Hb. pose proof (Hap j k a b Hjk Hk Ha Hb) as H.
  split; [exact H|exact (apart_dist2 _ _ H)].
Qed.

(** The junction (0,0) and the crossing (5,0) of the three roads. *)
Lemma findIntersections_crossings_apart_witness :
  (0 < 1)%nat ∧ (length (junctions nearJunctionRoads) ≤ 1)%nat ∧
  findIntersections nearJunctionRoads !! 0%nat = Some {| point := pt 0 0; vehicleCount := 0 |} ∧
  findIntersections nearJunctionRoads !! 1%nat = Some {| point := pt 5 0; vehicleCount := 0 |} ∧
  apart (pt 0 0) (pt 5 0) ∧ frac 25 1 ≤ dist2 (pt 0 0) (pt 5 0).
Proof.
  assert (H1 : (0 < 1)%nat) by lia.
  assert (H2 : (length (junctions nearJunctionRoads) ≤ 1)%nat) by (vm_compute; lia).
  assert (H3 : findIntersections nearJunctionRoads !! 0%nat
               = Some {| point := pt 0 0; vehicleCount := 0 |}) by by_evaluation.
  assert (H4 : findIntersections nearJunctionRoads !! 1%nat
               = Some {| point := pt 5 0; vehicleCount := 0 |}) by by_evaluation.
  destruct (findIntersections_crossings_apart nearJunctionRoads) as (crossings & _ & _ & Hap).
  split; [exact H1|]. split; [exact H2|]. split; [exact H3|]. split; [exact H4|].
  exact (Hap _ _ _ _ H1 H2 H3 H4).
Defined.

(** C4 (as stated) fails: the crossing (5,0) is recorded after the
    junction (0,0) and lies exactly 5 away from it, not farther. *)
Lemma findIntersections_farther_counterexample :
  findIntersections nearJunctionRoads
    = [{| point := pt 0 0; vehicleCount := 0 |}; {| point := pt 5 0; vehicleCount := 0 |}] ∧
  length (junctions nearJunctionRoads) = 1%nat ∧
  dist2 (pt 0 0) (pt 5 0) = frac 25 1 ∧
  ¬ (frac 25 1 < dist2 (pt 0 0) (pt 5 0)).
Proof.
  repeat split; try by_evaluation.
Qed.

End NetworkFacts.

(** ** Theorems: sorting *)

Module SortFacts.
Section SortFacts.
Context {A : Type} (key : A → Z).

Local Abbreviation ltb := (λ a b : A, bool_decide (key a < key b)%Z).
Local Abbreviation le := (λ a b : A, (key a ≤ key b)%Z).






End SortFacts.
End SortFacts.

(** ** Theorems: vehicle scheduler *)

Module SchedulerFacts.
Import Geometry PathFinder Scheduler.
Section SchedulerFacts.
Context {math : JSMath}.
Variable consts : Constants.
Variable buildings : list Building.
Variable roads : list Road.
Variable intersections : list Intersection.
Variable currentTime : Z.

Local Abbreviation stepVehicle := (stepVehicle consts buildings roads intersections currentTime).
Local Abbreviation shouldWait := (shouldWait intersections).
Local Abbreviation tick := (tick consts buildings roads intersections currentTime).
Local Abbreviation withArrivalTimes := (withArrivalTimes intersections currentTime).
Local Abbreviation moving := (moving consts).

(** *** The queues *)

Lemma get_sorted_queues (key : Point) (m : Queues) :
  JSMap.get key ((λ '(key, queue), (key, stable_sort (λ a b, bool_decide (a.2 < b.2)%Z) queue)) <$> m)
  = stable_sort (λ a b, bool_decide (a.2 < b.2)%Z) <$> JSMap.get key m.
Proof.
  induction m as [|[k q] m IH]; [reflexivity|]. rewrite fmap_cons. simpl.
  destruct (decide (key = k)); [reflexivity|exact IH].
Qed.


Lemma enqueue_entry (key k : Point) (e : string * Z) (qs : Queues) :
  queueAt key
    (JSMap.set k
       (default [] (JSMap.get k (if JSMap.has k qs then qs else JSMap.set k [] qs)) ++ [e])
       (if JSMap.has k qs then qs else JSMap.set k [] qs))
  = queueAt key qs ++ (if decide (k = key) then [e] else []).
Proof.
  unfold queueAt. destruct (decide (k = key)) as [->|Hne].
  - rewrite JSMapFacts.get_set_eq. unfold JSMap.has.
    destruct (JSMap.get key qs) as [q|] eqn:Hg.
    + rewrite bool_decide_eq_true_2 by eauto. rewrite Hg. reflexivity.
    + rewrite bool_decide_eq_false_2 by (intros [? ?]; discriminate).
      rewrite JSMapFacts.get_set_eq. reflexivity.
  - rewrite JSMapFacts.get_set_ne by exact Hne. rewrite app_nil_r.
    destruct (JSMap.has k qs); [reflexivity|]. rewrite JSMapFacts.get_set_ne by exact Hne. reflexivity.
Qed.

Lemma enqueueVehicle_queue (key : Point) (v : Vehicle) (qs : Queues) :
  queueAt key (enqueueVehicle qs v) = queueAt key qs ++ arrivalsAt key [v].
Proof.
  unfold enqueueVehicle, arrivalsAt. rewrite bind_cons. change (@nil Vehicle ≫= _) with (@nil (string * Z)). rewrite app_nil_r.
  destruct (enRoute v); [|rewrite app_nil_r; reflexivity].
  generalize (intersectionArrivalTimes v). intros times. revert qs.
  induction times as [|[k t] times IH]; intros qs.
  - simpl. rewrite app_nil_r. reflexivity.
  - rewrite bind_cons. cbn [fold_left]. rewrite IH.
    rewrite (app_assoc (queueAt key qs)). f_equal. apply enqueue_entry.
Qed.

Lemma enqueueVehicles_queue (key : Point) (vehicles : list Vehicle) (qs : Queues) :
  queueAt key (fold_left enqueueVehicle vehicles qs) = queueAt key qs ++ arrivalsAt key vehicles.
Proof.
  revert qs. induction vehicles as [|v vehicles IH]; intros qs; simpl.
  - unfold arrivalsAt. simpl. rewrite app_nil_r. reflexivity.
  - rewrite IH, enqueueVehicle_queue. rewrite <- app_assoc. f_equal.
    unfold arrivalsAt. simpl. rewrite app_nil_r. reflexivity.
Qed.

(** The queue of an intersection holds the arrival records of the en-route
    vehicles for its key, sorted by arrival time, the records of one time
    in the order of the vehicles. *)
Lemma intersectionQueues_entries (vehicles : list Vehicle) (key : Point) (queue : list (string * Z)) :
  JSMap.get key (intersectionQueues vehicles) = Some queue →
  queue = stable_sort (λ a b, bool_decide (a.2 < b.2)%Z) (arrivalsAt key vehicles).
Proof.
  unfold intersectionQueues. rewrite get_sorted_queues.
  pose proof (enqueueVehicles_queue key vehicles []) as Hq. unfold queueAt in Hq. simpl in Hq.
  destruct (JSMap.get key (fold_left enqueueVehicle vehicles [])) as [q|]; [|discriminate].
  simpl in Hq. rewrite Hq. intros [= <-]. reflexivity.
Qed.

(** *** The wait decision *)








(** *** The office and the home *)

Lemma withArrivalTimes_parked (vehicle : Vehicle) :
  enRoute vehicle = false → withArrivalTimes vehicle = vehicle.
Proof. unfold Scheduler.withArrivalTimes. intros ->. reflexivity. Qed.

Lemma find_Some_elem {A} (f : A → bool) (l : list A) (a : A) :
  List.find f l = Some a → a ∈ l ∧ f a = true.
Proof. intros Hf. apply find_some in Hf as [Hin Hfa]. split; [apply list_elem_of_In, Hin|exact Hfa]. Qed.

(** A return path is a path that [findPath] gives from the position of
    the office of the vehicle to the position of its home. *)
Lemma createReturnPath_findPath (vehicle : Vehicle) (returnPath : list Point) :
  createReturnPath buildings roads vehicle = Some returnPath →
  ∃ office home,
    office ∈ buildings ∧ building_id office = toBuilding vehicle ∧
    home ∈ buildings ∧ building_id home = fromBuilding vehicle ∧
    findPath (position_of office) (position_of home) roads = Some returnPath.
Proof.
  unfold createReturnPath.
  destruct (List.find _ buildings) as [office|] eqn:Ho; [|discriminate].
  destruct (List.find (λ b, bool_decide (building_id b = fromBuilding vehicle)) buildings)
    as [home|] eqn:Hh; [|discriminate].
  intros Hp. exists office, home.
  apply find_Some_elem in Ho as [Ho1 Ho2]. apply find_Some_elem in Hh as [Hh1 Hh2].
  apply bool_decide_eq_true_1 in Ho2. apply bool_decide_eq_true_1 in Hh2. auto 6.
Qed.

(** C7: for a vehicle at the office, once the dwell has elapsed and a
    return path of two nodes or more exists, the tick returns the vehicle
    going home on that path, at its first node, with target index 1 and
    no arrival time recorded, the other fields as they were; before the
    dwell has elapsed, or without such a path, the vehicle is returned
    unchanged. *)
Theorem office_departure (vehicles : list Vehicle) (queues : Queues) (vehicle : Vehicle) :
  status vehicle = at_office →
  withArrivalTimes vehicle = vehicle ∧
  (∀ returnPath,
     (OFFICE_WAIT_TIME consts ≤ currentTime - officeArrivalTime vehicle)%Z →
     createReturnPath buildings roads vehicle = Some returnPath →
     (2 ≤ length returnPath)%nat →
     ∃ vehicle',
       stepVehicle vehicles queues vehicle = (Some vehicle', 0%Z) ∧
       status vehicle' = going_home ∧ path vehicle' = returnPath ∧
       targetIndex vehicle' = 1%nat ∧ Some (position vehicle') = head returnPath ∧
       intersectionArrivalTimes vehicle' = [] ∧
       vid vehicle' = vid vehicle ∧ speed vehicle' = speed vehicle ∧
       waitTime vehicle' = waitTime vehicle ∧ color vehicle' = color vehicle ∧
       lane vehicle' = lane vehicle ∧ direction vehicle' = direction vehicle ∧
       fromBuilding vehicle' = fromBuilding vehicle ∧ toBuilding vehicle' = toBuilding vehicle ∧
       officeArrivalTime vehicle' = officeArrivalTime vehicle) ∧
  ((currentTime - officeArrivalTime vehicle < OFFICE_WAIT_TIME consts)%Z ∨
   createReturnPath buildings roads vehicle = None ∨
   (∃ returnPath, createReturnPath buildings roads vehicle = Some returnPath ∧
                  (length returnPath < 2)%nat) →
   stepVehicle vehicles queues vehicle = (Some vehicle, 0%Z)).
Proof.
  intros Hst. split; [|split].
  - apply withArrivalTimes_parked. unfold enRoute. rewrite Hst. reflexivity.
  - intros returnPath Hdwell Hpath Hlen. exists (leavingOffice vehicle returnPath).
    unfold Scheduler.stepVehicle.
    rewrite (decide_True (P := status vehicle = at_office)) by exact Hst.
    rewrite (decide_True (P := (OFFICE_WAIT_TIME consts ≤ currentTime - officeArrivalTime vehicle)%Z))
      by exact Hdwell.
    rewrite Hpath. rewrite (decide_True (P := (2 ≤ length returnPath)%nat)) by exact Hlen.
    split; [reflexivity|]. simpl.
    destruct returnPath as [|p0 returnPath]; [simpl in Hlen; lia|]. repeat split.
  - intros Hno. unfold Scheduler.stepVehicle.
    rewrite (decide_True (P := status vehicle = at_office)) by exact Hst.
    destruct (decide (OFFICE_WAIT_TIME consts ≤ currentTime - officeArrivalTime vehicle)%Z)
      as [Hdwell|Hdwell]; [|reflexivity].
    destruct Hno as [Hearly|[Hnone|(returnPath & Hsome & Hshort)]].
    + lia.
    + rewrite Hnone. reflexivity.
    + rewrite Hsome. rewrite (decide_False (P := (2 ≤ length returnPath)%nat)) by lia. reflexivity.
Qed.

Lemma stepVehicle_score (vehicles : list Vehicle) (queues : Queues) (vehicle : Vehicle) :
  (stepVehicle vehicles queues vehicle).2
  = if arrivedHome vehicle then SCORE_PER_TRIP consts else 0%Z.
Proof.
  unfold Scheduler.stepVehicle, arrivedHome.
  destruct (decide (status vehicle = at_office)) as [Hs|Hs].
  { rewrite Hs. simpl. destruct (decide _); [|reflexivity].
    destruct (createReturnPath _ _ _); [|reflexivity]. destruct (decide _); reflexivity. }
  destruct (decide (status vehicle = at_home)) as [Hh|Hh]; [rewrite Hh; reflexivity|].
  destruct (decide (length (path vehicle) ≤ targetIndex vehicle)%nat) as [Hl|Hl].
  - rewrite (bool_decide_eq_true_2 _ Hl), andb_true_r.
    destruct (decide (status vehicle = going_to_office)) as [Hg|Hg]; [rewrite Hg; reflexivity|].
    destruct (decide (status vehicle = going_home)) as [Hg'|Hg'].
    + rewrite (bool_decide_eq_true_2 _ Hg'). reflexivity.
    + rewrite (bool_decide_eq_false_2 _ Hg'). reflexivity.
  - rewrite (bool_decide_eq_false_2 _ Hl), andb_false_r. destruct (shouldWait _ _ _); reflexivity.
Qed.

Lemma stepVehicle_removed (vehicles : list Vehicle) (queues : Queues) (vehicle : Vehicle) :
  (stepVehicle vehicles queues vehicle).1 = None ↔
  status vehicle = at_home ∨ arrivedHome vehicle = true.
Proof.
  unfold Scheduler.stepVehicle, arrivedHome.
  destruct (decide (status vehicle = at_office)) as [Hs|Hs].
  { rewrite Hs. simpl. split; [|intros [?|?]; discriminate].
    destruct (decide _); [|discriminate].
    destruct (createReturnPath _ _ _); [|discriminate]. destruct (decide _); discriminate. }
  destruct (decide (status vehicle = at_home)) as [Hh|Hh]; [simpl; tauto|].
  destruct (decide (length (path vehicle) ≤ targetIndex vehicle)%nat) as [Hl|Hl].
  - rewrite (bool_decide_eq_true_2 _ Hl), andb_true_r.
    destruct (decide (status vehicle = going_to_office)) as [Hg|Hg].
    { rewrite Hg. simpl. split; [discriminate|]. intros [?|?]; discriminate. }
    destruct (decide (status vehicle = going_home)) as [Hg'|Hg'].
    + rewrite (bool_decide_eq_true_2 _ Hg'). simpl. tauto.
    + destruct (status vehicle); congruence.
  - rewrite (bool_decide_eq_false_2 _ Hl), andb_false_r.
    destruct (shouldWait _ _ _); simpl; (split; [discriminate|intros [?|?]; congruence]).
Qed.

Lemma stepVehicle_not_at_home (vehicles : list Vehicle) (queues : Queues) (vehicle vehicle' : Vehicle) :
  (stepVehicle vehicles queues vehicle).1 = Some vehicle' → status vehicle' ≠ at_home.
Proof.
  unfold Scheduler.stepVehicle.
  destruct (decide (status vehicle = at_office)) as [Hs|Hs].
  { destruct (decide _).
    - destruct (createReturnPath _ _ _); [destruct (decide _)|]; simpl; intros [= <-]; simpl; congruence.
    - simpl. intros [= <-]. congruence. }
  destruct (decide (status vehicle = at_home)) as [Hh|Hh]; [discriminate|].
  destruct (decide (length (path vehicle) ≤ targetIndex vehicle)%nat) as [Hl|Hl].
  - destruct (decide (status vehicle = going_to_office)); [simpl; intros [= <-]; discriminate|].
    destruct (decide (status vehicle = going_home)); [discriminate|].
    simpl. intros [= <-]. exact Hh.
  - destruct (shouldWait _ _ _); simpl; intros [= <-]; [exact Hh|].
    unfold Scheduler.moving. destruct (decide _); exact Hh.
Qed.

Lemma withArrivalTimes_status (vehicle : Vehicle) :
  status (withArrivalTimes vehicle) = status vehicle ∧
  arrivedHome (withArrivalTimes vehicle) = arrivedHome vehicle.
Proof.
  unfold Scheduler.withArrivalTimes. destruct (enRoute vehicle); split; reflexivity.
Qed.

Lemma results_score (vehicles : list Vehicle) (queues : Queues) (l : list Vehicle) :
  foldr Z.add 0%Z (snd <$> (stepVehicle vehicles queues <$> (withArrivalTimes <$> l)))
  = (SCORE_PER_TRIP consts * Z.of_nat (length (List.filter arrivedHome l)))%Z.
Proof.
  induction l as [|v l IH]; [simpl; lia|].
  rewrite !fmap_cons. simpl foldr. rewrite IH, stepVehicle_score.
  rewrite (proj2 (withArrivalTimes_status v)). simpl List.filter.
  destruct (arrivedHome v); simpl length; lia.
Qed.

Lemma results_kept (vehicles : list Vehicle) (queues : Queues) (l : list Vehicle) :
  length (omap fst (stepVehicle vehicles queues <$> (withArrivalTimes <$> l)))
  = length (List.filter kept l) ∧
  Forall (λ v, status v ≠ at_home)
    (omap fst (stepVehicle vehicles queues <$> (withArrivalTimes <$> l))).
Proof.
  induction l as [|v l [IH1 IH2]]; [split; [reflexivity|constructor]|].
  rewrite !fmap_cons. simpl omap. simpl List.filter.
  pose proof (stepVehicle_removed vehicles queues (withArrivalTimes v)) as Hr.
  pose proof (stepVehicle_not_at_home vehicles queues (withArrivalTimes v)) as Hn.
  destruct (withArrivalTimes_status v) as [Hst Har]. rewrite Hst, Har in Hr.
  destruct ((stepVehicle vehicles queues (withArrivalTimes v)).1) as [v'|].
  - assert (Hk : kept v = true).
    { unfold kept. destruct (decide (status v = at_home)) as [Hh|Hh].
      - assert (Some v' = None) by (apply Hr; left; exact Hh). discriminate.
      - rewrite (bool_decide_eq_false_2 _ Hh). destruct (arrivedHome v); [|reflexivity].
        assert (Some v' = None) by (apply Hr; right; reflexivity). discriminate. }
    rewrite Hk. split; [cbn [length]; f_equal; exact IH1|].
    constructor; [exact (Hn v' eq_refl)|exact IH2].
  - assert (Hk : kept v = false).
    { unfold kept. destruct (proj1 Hr eq_refl) as [Hh|Ha].
      - rewrite (bool_decide_eq_true_2 _ Hh). reflexivity.
      - rewrite Ha. apply andb_false_r. }
    rewrite Hk. split; [exact IH1|exact IH2].
Qed.

(** C6 (as amended): the tick drops a vehicle whose status is at-home and
    adds nothing to the score for it; the vehicles that a tick drops are
    the at-home ones and the going-home ones whose target index has
    passed the end of their path, and the score increase of the tick is
    [SCORE_PER_TRIP] for each of the latter. *)
Theorem at_home_removed_without_credit (prevVehicles : list Vehicle) :
  (∀ vehicles queues vehicle,
     status vehicle = at_home →
     withArrivalTimes vehicle = vehicle ∧
     stepVehicle vehicles queues vehicle = (None, 0%Z)) ∧
  Forall (λ v, status v ≠ at_home) (tick prevVehicles).1 ∧
  length (tick prevVehicles).1 = length (List.filter kept prevVehicles) ∧
  (tick prevVehicles).2
  = (SCORE_PER_TRIP consts * Z.of_nat (length (List.filter arrivedHome prevVehicles)))%Z.
Proof.
  split; [|split; [|split]].
  - intros vehicles queues vehicle Hh. split.
    + apply withArrivalTimes_parked. unfold enRoute. rewrite Hh. reflexivity.
    + unfold Scheduler.stepVehicle. rewrite Hh. reflexivity.
  - unfold Scheduler.tick. simpl. apply results_kept.
  - unfold Scheduler.tick. simpl. apply results_kept.
  - unfold Scheduler.tick. simpl. apply results_score.
Qed.

(** *** Degenerate segments *)





End SchedulerFacts.


(** A vehicle that dwelt 4000 at the office, with a wait time of 3000. *)
Lemma office_departure_witness :
  let car := exampleVehicle "car-1" 100 100 at_office in
  let returnPath := [pt 100 100; pt 100 50; pt 0 50] in
  status car = at_office ∧
  (OFFICE_WAIT_TIME exampleConstants ≤ 5000 - officeArrivalTime car)%Z ∧
  createReturnPath (math := decimalMath) exampleBuildings crossRoads car = Some returnPath ∧
  (2 ≤ length returnPath)%nat ∧
  ∃ car',
    stepVehicle (math := decimalMath) exampleConstants exampleBuildings crossRoads [crossing] 5000
      [car] [] car = (Some car', 0%Z) ∧
    status car' = going_home ∧ path car' = returnPath ∧ targetIndex car' = 1%nat ∧
    position car' = pt 100 100 ∧ intersectionArrivalTimes car' = [].
Proof.
  intros car returnPath.
  assert (H1 : status car = at_office) by reflexivity.
  assert (H2 : (OFFICE_WAIT_TIME exampleConstants ≤ 5000 - officeArrivalTime car)%Z)
    by (vm_compute; discriminate).
  assert (H3 : createReturnPath (math := decimalMath) exampleBuildings crossRoads car
               = Some returnPath) by by_evaluation.
  assert (H4 : (2 ≤ length returnPath)%nat) by (simpl; lia).
  destruct (proj1 (proj2 (office_departure (math := decimalMath) exampleConstants exampleBuildings
              crossRoads [crossing] 5000 [car] [] car H1)) returnPath H2 H3 H4)
    as (car' & Hstep & Hs & Hp & Ht & Hpos & Htimes & _).
  split; [exact H1|]. split; [exact H2|]. split; [exact H3|]. split; [exact H4|].
  exists car'. split; [exact Hstep|]. split; [exact Hs|]. split; [exact Hp|].
  split; [exact Ht|]. split; [|exact Htimes].
  simpl in Hpos. injection Hpos as ->. reflexivity.
Defined.

(** An at-home vehicle alone: the tick drops it and adds nothing. *)
Lemma at_home_removed_without_credit_witness :
  let car := exampleVehicle "car-1" 0 50 at_home in
  status car = at_home ∧
  stepVehicle (math := decimalMath) exampleConstants exampleBuildings crossRoads [crossing] 5000
    [car] [] car = (None, 0%Z).
Proof.
  intros car. assert (H1 : status car = at_home) by reflexivity.
  split; [exact H1|].
  exact (proj2 (proj1 (at_home_removed_without_credit (math := decimalMath) exampleConstants
           exampleBuildings crossRoads [crossing] 5000 [car]) [car] [] car H1)).
Defined.

(** C6 (as stated) fails: with a score of 1 per trip, the run of the game
    loop on one at-home vehicle removes it and leaves the score at 7. *)
Lemma at_home_credit_counterexample :
  let car := exampleVehicle "car-1" 0 50 at_home in
  status car = at_home ∧
  (0 < SCORE_PER_TRIP exampleConstants)%Z ∧
  gameLoop (math := decimalMath) exampleConstants exampleBuildings crossRoads [crossing] 5000
    [car] 7 = ([], 7%Z).
Proof.
  intros car. split; [reflexivity|]. split; [reflexivity|]. by_evaluation.
Qed.


End SchedulerFacts.

Module CurvesFacts.
Import Geometry Curves GeometryFacts.

(** *** Rounding *)

Lemma Qc_of_Z_le (a b : Z) : (a ≤ b)%Z ↔ Qc_of_Z a ≤ Qc_of_Z b.
Proof. unfold Qcle. simpl. rewrite Zle_Qle. reflexivity. Qed.

Lemma Qc_of_Z_lt (a b : Z) : (a < b)%Z ↔ Qc_of_Z a < Qc_of_Z b.
Proof. unfold Qclt. simpl. rewrite Zlt_Qlt. reflexivity. Qed.

Lemma Qc_of_Z_plus (a b : Z) : Qc_of_Z (a + b) = Qc_of_Z a + Qc_of_Z b.
Proof. apply Qc_is_canon. simpl. rewrite Qred_correct, inject_Z_plus. reflexivity. Qed.

Lemma Qc_of_Z_inj (a b : Z) : Qc_of_Z a = Qc_of_Z b → a = b.
Proof.
  intros Heq. apply Z.le_antisymm; apply Qc_of_Z_le; rewrite Heq; apply Qcle_refl.
Qed.

(** [Math.round] leaves an integer as it is. *)
Lemma Math_round_integer (k : Z) : Math_round (Qc_of_Z k) = Qc_of_Z k.
Proof.
  destruct (Math_round_nearest (Qc_of_Z k)) as (z & -> & Hlo & Hhi). f_equal.
  assert (H1 : Qc_of_Z k < Qc_of_Z (z + 1)).
  { rewrite Qc_of_Z_plus. unfold Qclt, Qcle in *. simpl in *. rewrite !Qred_correct in *.
    change (inject_Z 1) with 1%Q. lra. }
  assert (H2 : Qc_of_Z z < Qc_of_Z (k + 1)).
  { rewrite Qc_of_Z_plus. unfold Qclt, Qcle in *. simpl in *. rewrite !Qred_correct in *.
    change (inject_Z 1) with 1%Q. lra. }
  apply Qc_of_Z_lt in H1, H2. lia.
Qed.

(** X: a point that [getLineIntersection] returns has integer coordinates
    and is at most one half away, on each axis, from a point that lies on
    both segments, between 1% and 99% of each. *)
Theorem getLineIntersection_near_common_point (p1 p2 p3 p4 p : Point) :
  getLineIntersection p1 p2 p3 p4 = Some p →
  ∃ t u,
    parametric p1 p2 p3 p4 t u ∧ in_closed t ∧ in_closed u ∧
    (∃ i j : Z, p = {| x := Qc_of_Z i; y := Qc_of_Z j |}) ∧
    (x p1 + t * (x p2 - x p1)) - frac 1 2 < x p ∧ x p ≤ (x p1 + t * (x p2 - x p1)) + frac 1 2 ∧
    (y p1 + t * (y p2 - y p1)) - frac 1 2 < y p ∧ y p ≤ (y p1 + t * (y p2 - y p1)) + frac 1 2.
Proof.
  unfold getLineIntersection. fold (cross_of p1 p2 p3 p4).
  destruct (decide (Math_abs (cross_of p1 p2 p3 p4) < frac 1 10000)) as [|Hc]; [discriminate|].
  set (t := ((x p3 - x p1) * (y p4 - y p3) - (y p3 - y p1) * (x p4 - x p3)) / cross_of p1 p2 p3 p4).
  set (u := ((x p3 - x p1) * (y p2 - y p1) - (y p3 - y p1) * (x p2 - x p1)) / cross_of p1 p2 p3 p4).
  destruct (decide _) as [(Ht1 & Ht2 & Hu1 & Hu2)|]; [|discriminate].
  intros [= <-]. exists t, u.
  split; [exact (parametric_exists p1 p2 p3 p4 (Math_abs_small_nonzero _ Hc))|].
  split; [split; assumption|]. split; [split; assumption|]. simpl.
  destruct (Math_round_nearest (x p1 + t * (x p2 - x p1))) as (i & Hi & Hi1 & Hi2).
  destruct (Math_round_nearest (y p1 + t * (y p2 - y p1))) as (j & Hj & Hj1 & Hj2).
  rewrite Hi, Hj. split; [exists i, j; reflexivity|]. auto.
Qed.

Lemma Math_abs_opp (c : Qc) : Math_abs (- c) = Math_abs c.
Proof.
  unfold Math_abs. destruct (decide (- c < 0)) as [H1|H1], (decide (c < 0)) as [H2|H2].
  - exfalso. unfold Qclt in *. simpl in *. rewrite !Qred_correct in *. lra.
  - ring.
  - reflexivity.
  - apply Qcle_antisym; unfold Qclt, Qcle in *; simpl in *; rewrite !Qred_correct in *; lra.
Qed.

(** X: the crossing of two segments does not depend on which of the two
    is given first. *)
Theorem getLineIntersection_swap (p1 p2 p3 p4 : Point) :
  getLineIntersection p3 p4 p1 p2 = getLineIntersection p1 p2 p3 p4.
Proof.
  unfold getLineIntersection.
  fold (cross_of p3 p4 p1 p2). fold (cross_of p1 p2 p3 p4).
  assert (Hc : cross_of p3 p4 p1 p2 = - cross_of p1 p2 p3 p4) by (unfold cross_of; ring).
  rewrite Hc, Math_abs_opp.
  destruct (decide (Math_abs (cross_of p1 p2 p3 p4) < frac 1 10000)) as [|Hn]; [reflexivity|].
  pose proof (Math_abs_small_nonzero _ Hn) as Hnz.
  assert (Hnz' : - cross_of p1 p2 p3 p4 ≠ 0).
  { intros H0. apply Hnz. rewrite <- (Qcopp_involutive (cross_of p1 p2 p3 p4)), H0. reflexivity. }
  set (t := ((x p3 - x p1) * (y p4 - y p3) - (y p3 - y p1) * (x p4 - x p3)) / cross_of p1 p2 p3 p4).
  set (u := ((x p3 - x p1) * (y p2 - y p1) - (y p3 - y p1) * (x p2 - x p1)) / cross_of p1 p2 p3 p4).
  assert (Hu : ((x p1 - x p3) * (y p2 - y p1) - (y p1 - y p3) * (x p2 - x p1))
               / - cross_of p1 p2 p3 p4 = u) by (unfold u; field; split; assumption).
  assert (Ht : ((x p1 - x p3) * (y p4 - y p3) - (y p1 - y p3) * (x p4 - x p3))
               / - cross_of p1 p2 p3 p4 = t) by (unfold t; field; split; assumption).
  rewrite Hu, Ht.
  destruct (parametric_exists p1 p2 p3 p4 Hnz) as [Hx Hy]. fold t u in Hx, Hy.
  rewrite <- Hx, <- Hy.
  destruct (decide (frac 1 100 ≤ t ∧ t ≤ frac 99 100 ∧ frac 1 100 ≤ u ∧ u ≤ frac 99 100)) as [H1|H1].
  - rewrite decide_True by tauto. reflexivity.
  - rewrite decide_False by tauto. reflexivity.
Qed.

Lemma in_closed_complement (t : Qc) :
  frac 1 100 ≤ 1 - t ∧ 1 - t ≤ frac 99 100 ↔ frac 1 100 ≤ t ∧ t ≤ frac 99 100.
Proof.
  unfold Qcle. simpl. rewrite !Qred_correct.
  change (this (frac 1 100)) with (1 # 100)%Q. change (this (frac 99 100)) with (99 # 100)%Q.
  split; intros [? ?]; split; lra.
Qed.

(** X: the crossing of two segments does not depend on the direction in
    which the first one is given. *)
Theorem getLineIntersection_reverse (p1 p2 p3 p4 : Point) :
  getLineIntersection p2 p1 p3 p4 = getLineIntersection p1 p2 p3 p4.
Proof.
  unfold getLineIntersection.
  fold (cross_of p2 p1 p3 p4). fold (cross_of p1 p2 p3 p4).
  assert (Hc : cross_of p2 p1 p3 p4 = - cross_of p1 p2 p3 p4) by (unfold cross_of; ring).
  rewrite Hc, Math_abs_opp.
  destruct (decide (Math_abs (cross_of p1 p2 p3 p4) < frac 1 10000)) as [|Hn]; [reflexivity|].
  pose proof (Math_abs_small_nonzero _ Hn) as Hnz.
  assert (Hnz' : - cross_of p1 p2 p3 p4 ≠ 0).
  { intros H0. apply Hnz. rewrite <- (Qcopp_involutive (cross_of p1 p2 p3 p4)), H0. reflexivity. }
  set (t := ((x p3 - x p1) * (y p4 - y p3) - (y p3 - y p1) * (x p4 - x p3)) / cross_of p1 p2 p3 p4).
  set (u := ((x p3 - x p1) * (y p2 - y p1) - (y p3 - y p1) * (x p2 - x p1)) / cross_of p1 p2 p3 p4).
  assert (Ht : ((x p3 - x p2) * (y p4 - y p3) - (y p3 - y p2) * (x p4 - x p3))
               / - cross_of p1 p2 p3 p4 = 1 - t).
  { unfold t, cross_of in *. field. split; assumption. }
  assert (Hu : ((x p3 - x p2) * (y p1 - y p2) - (y p3 - y p2) * (x p1 - x p2))
               / - cross_of p1 p2 p3 p4 = u).
  { unfold u, cross_of in *. field. split; assumption. }
  rewrite Ht, Hu.
  replace (x p2 + (1 - t) * (x p1 - x p2)) with (x p1 + t * (x p2 - x p1)) by ring.
  replace (y p2 + (1 - t) * (y p1 - y p2)) with (y p1 + t * (y p2 - y p1)) by ring.
  pose proof (in_closed_complement t) as Hcomp.
  destruct (decide (frac 1 100 ≤ t ∧ t ≤ frac 99 100 ∧ frac 1 100 ≤ u ∧ u ≤ frac 99 100)) as [H1|H1].
  - rewrite decide_True by tauto. reflexivity.
  - rewrite decide_False by tauto. reflexivity.
Qed.
(** *** Lane offsets *)

(** X: the lane offset is perpendicular to the direction of travel. *)
Theorem getLaneOffset_perpendicular {math : JSMath} (consts : Constants) (from to : Point)
    (ln : Lane) :
  x (Scheduler.getLaneOffset consts from to ln) * (x to - x from)
  + y (Scheduler.getLaneOffset consts from to ln) * (y to - y from) = 0.
Proof.
  unfold Scheduler.getLaneOffset.
  destruct (decide (Math_sqrt _ = 0)) as [Hz|Hz]; simpl; [ring|].
  field. exact Hz.
Qed.

(** X: travelling the same segment the other way, or in the other lane,
    gives the opposite offset. *)
Theorem getLaneOffset_opposite {math : JSMath} (consts : Constants) (from to : Point) (ln : Lane) :
  Scheduler.getLaneOffset consts to from ln
    = {| x := - x (Scheduler.getLaneOffset consts from to ln);
         y := - y (Scheduler.getLaneOffset consts from to ln) |} ∧
  Scheduler.getLaneOffset consts from to left_lane
    = {| x := - x (Scheduler.getLaneOffset consts from to right_lane);
         y := - y (Scheduler.getLaneOffset consts from to right_lane) |}.
Proof.
  unfold Scheduler.getLaneOffset. split.
  - replace ((x from - x to) * (x from - x to) + (y from - y to) * (y from - y to))
      with ((x to - x from) * (x to - x from) + (y to - y from) * (y to - y from)) by ring.
    destruct (decide (Math_sqrt _ = 0)) as [Hz|Hz]; simpl; [f_equal; ring|].
    f_equal; field; exact Hz.
  - destruct (decide (Math_sqrt _ = 0)) as [Hz|Hz]; simpl; [f_equal; ring|].
    f_equal; field; exact Hz.
Qed.

(** *** Curves *)

Lemma bezierPoint_0 (a c b : Point) : bezierPoint a c b 0 = a.
Proof. destruct a as [ax ay]. unfold bezierPoint. simpl. f_equal; ring. Qed.

Lemma bezierPoint_1 (a c b : Point) : bezierPoint a c b 1 = b.
Proof. destruct b as [bx by']. unfold bezierPoint. simpl. f_equal; ring. Qed.

Lemma Qc_of_Z_nonzero (n : Z) : n ≠ 0%Z → Qc_of_Z n ≠ 0.
Proof.
  intros Hn Hc. apply Hn. apply Qc_of_Z_inj. rewrite Hc. apply Qc_is_canon. reflexivity.
Qed.

(** X: a curve sampled in [segments] pieces has [segments + 1] points, the
    first the start of the curve, the last its end. *)
Theorem sampleBezierCurve_endpoints (start_ control end_pt : Point) (segments : nat) :
  (1 ≤ segments)%nat →
  length (sampleBezierCurve start_ control end_pt segments) = S segments ∧
  head (sampleBezierCurve start_ control end_pt segments) = Some start_ ∧
  last (sampleBezierCurve start_ control end_pt segments) = Some end_pt.
Proof.
  intros Hs. unfold sampleBezierCurve. split; [rewrite length_fmap, length_seq; reflexivity|].
  assert (Hnz : Qc_of_Z (Z.of_nat segments) ≠ 0) by (apply Qc_of_Z_nonzero; lia).
  split.
  - simpl. f_equal.
    replace (Qc_of_Z (Z.of_nat 0)) with (Q2Qc 0) by (apply Qc_is_canon; reflexivity).
    unfold Qcdiv. rewrite Qcmult_0_l. apply bezierPoint_0.
  - rewrite seq_S, fmap_app. simpl. rewrite last_snoc. f_equal.
    replace (Qc_of_Z (Z.of_nat segments) / Qc_of_Z (Z.of_nat segments)) with (Q2Qc 1)
      by (field; exact Hnz).
    apply bezierPoint_1.
Qed.

(** X: the spline goes through its two inner control points: it is at
    [p1] for [t = 0] and at [p2] for [t = 1]. *)
Theorem catmullRomSpline_interpolates (p0 p1 p2 p3 : Point) :
  catmullRomSpline p0 p1 p2 p3 0 = p1 ∧ catmullRomSpline p0 p1 p2 p3 1 = p2.
Proof.
  destruct p1 as [x1 y1], p2 as [x2 y2]. unfold catmullRomSpline. simpl.
  split; f_equal; apply Qc_is_canon; simpl; rewrite !Qred_correct; ring.
Qed.

(** *** The grid *)

(** X: snapping gives whole multiples of the grid size, at most half a
    cell away from the point on each axis, and snapping again changes
    nothing. *)
Theorem snapToGrid_grid (GRID_SIZE : Qc) (p : Point) :
  0 < GRID_SIZE →
  (∃ i j : Z, snapToGrid GRID_SIZE p
              = {| x := Qc_of_Z i * GRID_SIZE; y := Qc_of_Z j * GRID_SIZE |}) ∧
  (x p - GRID_SIZE / frac 2 1 < x (snapToGrid GRID_SIZE p) ∧
   x (snapToGrid GRID_SIZE p) ≤ x p + GRID_SIZE / frac 2 1) ∧
  (y p - GRID_SIZE / frac 2 1 < y (snapToGrid GRID_SIZE p) ∧
   y (snapToGrid GRID_SIZE p) ≤ y p + GRID_SIZE / frac 2 1) ∧
  snapToGrid GRID_SIZE (snapToGrid GRID_SIZE p) = snapToGrid GRID_SIZE p.
Proof.
  intros Hpos.
  assert (Hnz : GRID_SIZE ≠ 0) by (intros ->; exact (Qclt_not_eq _ _ Hpos eq_refl)).
  assert (HnzQ : ¬ (this GRID_SIZE == 0)%Q) by (intros H0; apply Hnz, Qc_is_canon; exact H0).
  unfold snapToGrid. simpl.
  destruct (Math_round_nearest (x p / GRID_SIZE)) as (i & Hi & Hi1 & Hi2).
  destruct (Math_round_nearest (y p / GRID_SIZE)) as (j & Hj & Hj1 & Hj2).
  rewrite Hi, Hj.
  assert (Hcell : ∀ (c : Qc) (k : Z),
            c / GRID_SIZE - frac 1 2 < Qc_of_Z k → Qc_of_Z k ≤ c / GRID_SIZE + frac 1 2 →
            c - GRID_SIZE / frac 2 1 < Qc_of_Z k * GRID_SIZE ∧
            Qc_of_Z k * GRID_SIZE ≤ c + GRID_SIZE / frac 2 1).
  { intros c k H1 H2. split.
    - replace (c - GRID_SIZE / frac 2 1) with ((c / GRID_SIZE - frac 1 2) * GRID_SIZE)
          by (apply Qc_is_canon; simpl; rewrite !Qred_correct; field; exact HnzQ).
      apply Qcmult_lt_compat_r; assumption.
    - replace (c + GRID_SIZE / frac 2 1) with ((c / GRID_SIZE + frac 1 2) * GRID_SIZE)
          by (apply Qc_is_canon; simpl; rewrite !Qred_correct; field; exact HnzQ).
      apply Qcmult_le_compat_r; [assumption|apply Qclt_le_weak; exact Hpos]. }
  split; [exists i, j; reflexivity|].
  split; [exact (Hcell _ _ Hi1 Hi2)|]. split; [exact (Hcell _ _ Hj1 Hj2)|].
  replace (Qc_of_Z i * GRID_SIZE / GRID_SIZE) with (Qc_of_Z i) by (field; exact Hnz).
  replace (Qc_of_Z j * GRID_SIZE / GRID_SIZE) with (Qc_of_Z j) by (field; exact Hnz).
  rewrite !Math_round_integer. reflexivity.
Qed.
(** The crossing (100,50) of the two roads. *)
Lemma getLineIntersection_near_common_point_witness :
  getLineIntersection (pt 0 50) (pt 200 50) (pt 100 0) (pt 100 100) = Some (pt 100 50) ∧
  ∃ t u,
    parametric (pt 0 50) (pt 200 50) (pt 100 0) (pt 100 100) t u ∧ in_closed t ∧ in_closed u ∧
    (∃ i j : Z, pt 100 50 = {| x := Qc_of_Z i; y := Qc_of_Z j |}) ∧
    (x (pt 0 50) + t * (x (pt 200 50) - x (pt 0 50))) - frac 1 2 < x (pt 100 50) ∧
    x (pt 100 50) ≤ (x (pt 0 50) + t * (x (pt 200 50) - x (pt 0 50))) + frac 1 2 ∧
    (y (pt 0 50) + t * (y (pt 200 50) - y (pt 0 50))) - frac 1 2 < y (pt 100 50) ∧
    y (pt 100 50) ≤ (y (pt 0 50) + t * (y (pt 200 50) - y (pt 0 50))) + frac 1 2.
Proof.
  assert (H : getLineIntersection (pt 0 50) (pt 200 50) (pt 100 0) (pt 100 100)
              = Some (pt 100 50)) by by_evaluation.
  split; [exact H|].
  exact (getLineIntersection_near_common_point _ _ _ _ _ H).
Defined.

(** A curve in ten pieces. *)
Lemma sampleBezierCurve_endpoints_witness :
  (1 ≤ 10)%nat ∧
  length (sampleBezierCurve (pt 0 0) (pt 50 80) (pt 100 0) 10) = 11%nat ∧
  head (sampleBezierCurve (pt 0 0) (pt 50 80) (pt 100 0) 10) = Some (pt 0 0) ∧
  last (sampleBezierCurve (pt 0 0) (pt 50 80) (pt 100 0) 10) = Some (pt 100 0).
Proof.
  assert (H : (1 ≤ 10)%nat) by lia.
  split; [exact H|].
  exact (sampleBezierCurve_endpoints (pt 0 0) (pt 50 80) (pt 100 0) 10 H).
Defined.

(** The point (47,112) on a grid of 20 snaps to (40,120). *)
Lemma snapToGrid_grid_witness :
  0 < frac 20 1 ∧
  snapToGrid (frac 20 1) (pt 47 112) = pt 40 120 ∧
  snapToGrid (frac 20 1) (snapToGrid (frac 20 1) (pt 47 112)) = snapToGrid (frac 20 1) (pt 47 112).
Proof.
  assert (H : 0 < frac 20 1) by reflexivity.
  split; [exact H|]. split; [by_evaluation|].
  exact (proj2 (proj2 (proj2 (snapToGrid_grid (frac 20 1) (pt 47 112) H)))).
Defined.

End CurvesFacts.

(** ** Theorems: junctions *)

Module JunctionFacts.
Import Geometry Network NetworkFacts.

Section Keys.
Context {K V : Type} `{EqDecision K}.

Lemma set_keys_elem (k k' : K) (v : V) (m : list (K * V)) :
  k' ∈ (fst <$> JSMap.set k v m) ↔ k' = k ∨ k' ∈ (fst <$> m).
Proof.
  induction m as [|[k0 v0] m IH]; simpl.
  - rewrite list_elem_of_singleton, elem_of_nil. tauto.
  - destruct (decide (k = k0)) as [->|Hne]; simpl.
    + rewrite !elem_of_cons. tauto.
    + rewrite !elem_of_cons, IH. tauto.
Qed.

Lemma set_keys_NoDup (k : K) (v : V) (m : list (K * V)) :
  NoDup (fst <$> m) → NoDup (fst <$> JSMap.set k v m).
Proof.
  induction m as [|[k0 v0] m IH]; simpl; intros Hnd.
  - apply NoDup_singleton.
  - apply NoDup_cons in Hnd as [Hnin Hnd].
    destruct (decide (k = k0)) as [->|Hne]; simpl.
    + apply NoDup_cons. split; assumption.
    + apply NoDup_cons. split; [|exact (IH Hnd)].
      rewrite set_keys_elem. intros [?|?]; [congruence|contradiction].
Qed.

Lemma get_None_keys (k : K) (m : list (K * V)) : JSMap.get k m = None ↔ k ∉ (fst <$> m).
Proof.
  induction m as [|[k0 v0] m IH]; simpl.
  - rewrite elem_of_nil. tauto.
  - rewrite not_elem_of_cons. destruct (decide (k = k0)) as [->|Hne].
    + split; [discriminate|]. intros [? _]. congruence.
    + rewrite IH. tauto.
Qed.

Lemma elem_get (k : K) (v : V) (m : list (K * V)) :
  NoDup (fst <$> m) → (k, v) ∈ m → JSMap.get k m = Some v.
Proof.
  induction m as [|[k0 v0] m IH]; simpl; intros Hnd Hin; [inversion Hin|].
  apply NoDup_cons in Hnd as [Hnin Hnd].
  apply elem_of_cons in Hin as [[= <- <-]|Hin].
  - rewrite decide_True by reflexivity. reflexivity.
  - destruct (decide (k = k0)) as [->|Hne]; [|exact (IH Hnd Hin)].
    exfalso. apply Hnin. apply list_elem_of_fmap. exists (k0, v). split; [reflexivity|exact Hin].
Qed.
End Keys.

(** *** Counting the end points *)

Lemma countEndpoints_bump (roadList : list Road) :
  countEndpoints roadList = fold_left bump (endpoints roadList) [].
Proof.
  unfold countEndpoints, endpoints. generalize (@nil (Point * Z)).
  induction roadList as [|r roadList IH]; intros acc; [reflexivity|].
  simpl. rewrite IH. reflexivity.
Qed.

Lemma occurrences_cons (p q : Point) (l : list Point) :
  occurrences p (q :: l) = ((if decide (q = p) then 1 else 0) + occurrences p l)%Z.
Proof.
  unfold occurrences. simpl. destruct (decide (q = p)) as [->|Hne].
  - rewrite bool_decide_eq_true_2 by reflexivity. simpl length. lia.
  - rewrite bool_decide_eq_false_2 by exact Hne. lia.
Qed.

Lemma occurrences_nonneg (p : Point) (l : list Point) : (0 ≤ occurrences p l)%Z.
Proof. unfold occurrences. lia. Qed.

Lemma fold_bump (l : list Point) (acc : list (Point * Z)) (p : Point) :
  NoDup (fst <$> acc) →
  NoDup (fst <$> fold_left bump l acc) ∧
  default 0%Z (JSMap.get p (fold_left bump l acc))
    = (default 0%Z (JSMap.get p acc) + occurrences p l)%Z ∧
  (JSMap.get p (fold_left bump l acc) = None ↔
   JSMap.get p acc = None ∧ occurrences p l = 0%Z).
Proof.
  revert acc. induction l as [|q l IH]; intros acc Hnd.
  - simpl. split; [exact Hnd|]. unfold occurrences. simpl. split; [lia|tauto].
  - simpl fold_left. destruct (IH (bump acc q) (set_keys_NoDup _ _ _ Hnd)) as (H1 & H2 & H3).
    split; [exact H1|]. rewrite H2, H3, occurrences_cons. unfold bump.
    pose proof (occurrences_nonneg p l) as Hpos.
    destruct (decide (q = p)) as [->|Hne].
    + rewrite JSMapFacts.get_set_eq. simpl. split; [lia|].
      split; [intros [? _]; discriminate|]. intros [_ ?]. lia.
    + rewrite JSMapFacts.get_set_ne by exact Hne. split; [lia|].
      split; intros [? ?]; split; auto; lia.
Qed.

Lemma countEndpoints_get (roadList : list Road) (p : Point) (c : Z) :
  JSMap.get p (countEndpoints roadList) = Some c ↔
  c = occurrences p (endpoints roadList) ∧ (1 ≤ c)%Z.
Proof.
  rewrite countEndpoints_bump.
  destruct (fold_bump (endpoints roadList) [] p (NoDup_nil_2)) as (_ & H2 & H3).
  simpl in H2, H3. pose proof (occurrences_nonneg p (endpoints roadList)) as Hpos.
  destruct (JSMap.get p (fold_left bump (endpoints roadList) [])) as [c'|] eqn:Hg; simpl in H2.
  - assert (occurrences p (endpoints roadList) ≠ 0%Z).
    { intros H0. assert (Some c' = None) by (apply H3; auto). discriminate. }
    split; [intros [= <-]; lia|]. intros [-> _]. f_equal. lia.
  - split; [discriminate|]. intros [-> Hc].
    assert (occurrences p (endpoints roadList) = 0%Z) by (apply H3; reflexivity). lia.
Qed.

Lemma countEndpoints_NoDup (roadList : list Road) : NoDup (fst <$> countEndpoints roadList).
Proof.
  rewrite countEndpoints_bump.
  exact (proj1 (fold_bump (endpoints roadList) [] (mkPoint 0 0) (NoDup_nil_2))).
Qed.

Lemma junctions_elem (roadList : list Road) (i : Intersection) :
  i ∈ junctions roadList ↔
  vehicleCount i = 0%Z ∧ ∃ c, (point i, c) ∈ countEndpoints roadList ∧ (2 ≤ c)%Z.
Proof.
  unfold junctions. rewrite list_elem_of_omap. split.
  - intros ([k c] & Hin & Hs). destruct (decide (2 ≤ c)%Z); [|discriminate].
    injection Hs as <-. simpl. split; [reflexivity|]. exists c. auto.
  - intros (Hv & c & Hin & Hc). exists (point i, c). split; [exact Hin|].
    rewrite decide_True by exact Hc. destruct i as [p v]. simpl in *. subst v. reflexivity.
Qed.

Lemma junctions_points_sublist (m : list (Point * Z)) :
  sublist (point <$> omap (λ '(key, count),
      if decide (2 ≤ count)%Z then Some {| point := key; vehicleCount := 0 |} else None) m)
    (fst <$> m).
Proof.
  induction m as [|[k c] m IH]; simpl; [constructor|].
  destruct (decide (2 ≤ c)%Z); simpl; [apply sublist_skip|apply sublist_cons]; exact IH.
Qed.

Lemma junctions_NoDup (roadList : list Road) : NoDup (point <$> junctions roadList).
Proof.
  eapply sublist_NoDup; [apply countEndpoints_NoDup|apply junctions_points_sublist].
Qed.

(** X: the junctions are the points at which two road ends or more meet:
    a point is the point of a junction exactly when it occurs twice or
    more among the end points of the roads, and no two junctions have the
    same point. *)
Theorem junctions_shared_endpoints (roadList : list Road) :
  (∀ p, p ∈ (point <$> junctions roadList) ↔ (2 ≤ occurrences p (endpoints roadList))%Z) ∧
  NoDup (point <$> junctions roadList).
Proof.
  split; [|apply junctions_NoDup]. intros p. rewrite list_elem_of_fmap. split.
  - intros (i & -> & Hi). apply junctions_elem in Hi as (_ & c & Hin & Hc).
    apply (elem_get _ _ _ (countEndpoints_NoDup roadList)) in Hin.
    apply countEndpoints_get in Hin as [-> _]. exact Hc.
  - intros Hc. exists {| point := p; vehicleCount := 0 |}. split; [reflexivity|].
    apply junctions_elem. split; [reflexivity|]. exists (occurrences p (endpoints roadList)).
    split; [|exact Hc]. apply JSMapFacts.get_elem. apply countEndpoints_get. split; [reflexivity|lia].
Qed.

Lemma apart_irrefl (a : Point) : ¬ apart a a.
Proof.
  unfold apart. intros Hn. apply Hn.
  replace (x a - x a) with 0 by ring. replace (y a - y a) with 0 by ring.
  split; reflexivity.
Qed.

(** X: no two intersections of the output of [findIntersections] have the
    same point, so that the point of an intersection identifies it. *)
Theorem findIntersections_points_distinct (roadList : list Road) :
  NoDup (point <$> findIntersections roadList).
Proof.
  destruct (findIntersections_invariant roadList) as (crossings & Heq & _ & Hap).
  apply NoDup_alt. intros i j p Hi Hj.
  assert (Hlt : ∀ i j, (i < j)%nat →
            (point <$> findIntersections roadList) !! i = Some p →
            (point <$> findIntersections roadList) !! j = Some p → False).
  { clear i j Hi Hj. intros i j Hij Hi Hj.
    rewrite list_lookup_fmap in Hi, Hj.
    destruct (findIntersections roadList !! i) as [a|] eqn:Ha; [|discriminate].
    destruct (findIntersections roadList !! j) as [b|] eqn:Hb; [|discriminate].
    simpl in Hi, Hj. injection Hi as Hi. injection Hj as Hj.
    destruct (decide (length (junctions roadList) ≤ j)%nat) as [Hlen|Hlen].
    - apply (apart_irrefl p). rewrite <- Hi at 1. rewrite <- Hj.
      exact (Hap i j a b Hij Hlen Ha Hb).
    - rewrite Heq in Ha, Hb. rewrite lookup_app_l in Ha, Hb by lia.
      pose proof (junctions_NoDup roadList) as Hnd.
      rewrite NoDup_alt in Hnd.
      assert (i = j); [|lia].
      apply (Hnd i j p); rewrite list_lookup_fmap; [rewrite Ha|rewrite Hb]; simpl; congruence. }
  destruct (lt_eq_lt_dec i j) as [[H|H]|H]; [exfalso; eauto|exact H|exfalso; eauto].
Qed.
End JunctionFacts.

(** ** Theorems: reachability *)

Module ReachFacts.
Import BFS Reach BFSFacts.
Section ReachFacts.
Context {node edge : Type} `{EqDecision node}.
Variable neighbors : node → list (node * edge).
Variable endNode : node.

Local Abbreviation entry := (@entry node edge).
Local Abbreviation is_walk := (is_walk neighbors).
Local Abbreviation walk_from_to := (walk_from_to neighbors).
Local Abbreviation visit := (@visit node edge _).
Local Abbreviation search := (search neighbors endNode).
Local Abbreviation adjacent := (adjacent neighbors).
Local Abbreviation Explored := (Explored neighbors endNode).

Lemma Explored_init (s : node) : Explored s [(s, [s], [])] [s].
Proof.
  split; [left|]. intros v ->%list_elem_of_singleton. left.
  exists (s, [s], []). split; [left|reflexivity].
Qed.

Lemma Explored_step (s point : node) (path : list node) (pathRoads : list edge)
    (rest : list entry) (visited : list node) :
  point ≠ endNode →
  Explored s ((point, path, pathRoads) :: rest) visited →
  Explored s (fold_left (visit point path pathRoads) (neighbors point) (rest, visited)).1
             (fold_left (visit point path pathRoads) (neighbors point) (rest, visited)).2.
Proof.
  intros Hne [Hs Hc].
  destruct (fold_visit neighbors endNode point path pathRoads (neighbors point) rest visited)
    as (pushes & -> & Hp & Hv & Hn).
  split; [apply Hv; left; exact Hs|].
  intros v Hvis. apply Hv in Hvis as [Hvis|Hvis].
  - destruct (Hc v Hvis) as [(e & [-> | He]%elem_of_cons & <-)|[Hv1 Hv2]].
    + right. split; [exact Hne|]. intros w Hw. apply Hn, Hw.
    + left. exists e. split; [apply elem_of_app; left; exact He|reflexivity].
    + right. split; [exact Hv1|]. intros w Hw. apply Hv. left. exact (Hv2 w Hw).
  - apply list_elem_of_fmap in Hvis as (e & -> & He). left. exists e.
    split; [apply elem_of_app; right; exact He|reflexivity].
Qed.

Lemma closed_walk (visited : list node) (p : list node) :
  (∀ v, v ∈ visited → ∀ w, adjacent v w → w ∈ visited) →
  is_walk p → ∀ a, head p = Some a → a ∈ visited → ∀ b, b ∈ p → b ∈ visited.
Proof.
  intros Hclosed. induction p as [|a p IH]; [intros []|].
  intros Hw a' [= <-] Ha b Hb. apply elem_of_cons in Hb as [->|Hb]; [exact Ha|].
  destruct p as [|c p]; [inversion Hb|]. destruct Hw as [Hac Hw].
  apply (IH Hw c eq_refl (Hclosed a Ha c Hac) b Hb).
Qed.

Lemma last_elem (p : list node) (b : node) : last p = Some b → b ∈ p.
Proof.
  induction p as [|a p IH]; [discriminate|]. destruct p as [|c p].
  - intros [= ->]. left.
  - rewrite last_cons_cons. intros Hl. right. exact (IH Hl).
Qed.

(** When the queue runs empty, no walk leads from the start to the end node. *)
Lemma search_complete (s : node) (fuel : nat) (queue : list entry) (visited : list node) :
  Explored s queue visited →
  search fuel queue visited = Some None →
  ∀ p, ¬ walk_from_to s endNode p.
Proof.
  revert queue visited. induction fuel as [|fuel IH]; intros queue visited HE; [discriminate|].
  simpl. destruct queue as [|[[point path] pathRoads] rest].
  - intros _ p (Hw & Hh & Hl). destruct HE as [Hs Hc].
    assert (Hclosed : ∀ v, v ∈ visited → v ≠ endNode ∧ ∀ w, adjacent v w → w ∈ visited).
    { intros v Hv. destruct (Hc v Hv) as [(e & He & _)|Hr]; [inversion He|exact Hr]. }
    assert (Hin : endNode ∈ visited).
    { apply (closed_walk visited p (λ v Hv, proj2 (Hclosed v Hv)) Hw s Hh Hs).
      apply last_elem, Hl. }
    exact (proj1 (Hclosed endNode Hin) eq_refl).
  - destruct (decide (point = endNode)) as [|Hne]; [discriminate|].
    pose proof (Explored_step s point path pathRoads rest visited Hne HE) as HE'.
    destruct (fold_left (visit point path pathRoads) (neighbors point) (rest, visited))
      as [queue' visited'].
    intros Hs. exact (IH queue' visited' HE' Hs).
Qed.

(** *** Walks and symmetry *)

Lemma is_walk_app (p q : list node) (a b : node) :
  is_walk p → last p = Some a → adjacent a b → is_walk (b :: q) → is_walk (p ++ b :: q).
Proof.
  induction p as [|c p IH]; [intros []|].
  destruct p as [|d p].
  - intros _ [= ->] Hab Hq. simpl. split; assumption.
  - intros [Hcd Hw] Hl Hab Hq. rewrite last_cons_cons in Hl.
    change (is_walk (c :: d :: (p ++ b :: q))). split; [exact Hcd|].
    exact (IH Hw Hl Hab Hq).
Qed.

Lemma walk_rev (s t : node) (p : list node) :
  (∀ a b, adjacent a b → adjacent b a) →
  walk_from_to s t p → walk_from_to t s (rev p).
Proof.
  intros Hsym (Hw & Hh & Hl). split; [|split].
  - clear Hh Hl. induction p as [|a p IH]; [destruct Hw|].
    destruct p as [|b p]; [exact I|]. destruct Hw as [Hab Hw].
    change (rev (a :: b :: p)) with (rev (b :: p) ++ [a]).
    apply (is_walk_snoc neighbors _ b a (IH Hw)); [|apply Hsym, Hab].
    simpl. apply last_snoc.
  - destruct p as [|a p] using rev_ind; [discriminate|].
    rewrite rev_app_distr. simpl. rewrite last_snoc in Hl. congruence.
  - destruct p as [|a p]; [discriminate|]. simpl in *. rewrite last_snoc. exact Hh.
Qed.
End ReachFacts.
End ReachFacts.
